(** * Texture Atlas Generator: sequence discovery and tile compositing

    A shallow embedding of [texture-atlas-generator.py] (a Blender add-on)
    and the properties of its two algorithms: grouping the files of a folder
    into image sequences, and copying the tiles of a sequence into one
    tilemap pixel list.

    Python values are modelled as follows.
    - [int] is [Z]; [floor(a / b)] is [a / b] and [ceil(a / b)] is
      [- (- a / b)].  The add-on divides with the float division [/]; the
      operands are 32 bit Blender [IntProperty] values and list lengths, for
      which the rounded quotient has the same floor and ceiling as the exact
      one.
    - [str] is [list ascii]: file names are taken to be ASCII, where the
      regular expression class [\d] is exactly ['0'..'9'].
    - [float] is the primitive [float]; the add-on only copies pixel
      components, and what a data block keeps of the components assigned
      to it is a function of the host.
    - a [list] is a [list]; slices take [Z] bounds and follow Python's
      clamping rules, also on the pixel array of an image.
    - the [dict] of image sequences is a [gmap]; its insertion order is only
      used by the panel to order the drop-down entries and is not modelled.
    - exceptions are the [Raise] results of an error-and-state monad over the
      module globals and the image data blocks of Blender; the file system
      and the rest of Blender are a record of functions, [Host], that every
      call receives, since they change between calls.  Listing a
      directory that [isdir] accepts is taken to succeed.

    The development has three parts: the definitions, translated from the
    source; the sequence discovery and its cache; the tile compositing and
    the operator that runs it. *)

From Stdlib Require Import ZArith Ascii String PrimFloat Lia.
From stdpp Require Import gmap strings list list_numbers fin_maps sorting.

Local Open Scope Z_scope.

(** ** Python runtime *)

Module Py.

Abbreviation str := (list ascii).

Inductive exn :=
| AttributeError   (* [None.start(1)] *)
| KeyError         (* [d[k]] with [k] missing *)
| ZeroDivisionError
| ReferenceError   (* a data block that was removed is read *)
| RuntimeError.    (* raised by the host, e.g. an image that cannot be loaded *)

Inductive result (A : Type) :=
| Ok (a : A)
| Raise (e : exn).
Arguments Ok {A} a.
Arguments Raise {A} e.

#[global] Instance exn_eq_dec : EqDecision exn.
Proof. solve_decision. Defined.

Definition is_Ok {A} (r : result A) : bool :=
  match r with Ok _ => true | Raise _ => false end.

(** Where Python clamps a slice bound of a sequence of length [len]. *)
Definition slice_bound (len i : Z) : Z :=
  if i <? 0 then Z.max 0 (i + len) else Z.min i len.

(** [l[i:j]] *)
Definition slice_get {A} (l : list A) (i j : Z) : list A :=
  let len := Z.of_nat (length l) in
  let i' := slice_bound len i in
  let j' := slice_bound len j in
  take (Z.to_nat (j' - i')) (drop (Z.to_nat i') l).

(** [l[i:j] = v] on a list: the slice is replaced by [v], whatever the
    length of [v]. *)
Definition slice_set {A} (l : list A) (i j : Z) (v : list A) : list A :=
  let len := Z.of_nat (length l) in
  let i' := slice_bound len i in
  let j' := Z.max i' (slice_bound len j) in
  take (Z.to_nat i') l ++ v ++ drop (Z.to_nat j') l.

(** [l * n] *)
Definition list_mul {A} (l : list A) (n : Z) : list A :=
  mjoin (replicate (Z.to_nat n) l).

(** [range(0, n)] *)
Definition range (n : Z) : list Z := seqZ 0 n.

(** [floor(a / b)] and [ceil(a / b)], for [b <> 0]. *)
Definition floor_div (a b : Z) : Z := a / b.
Definition ceil_div (a b : Z) : Z := - (- a / b).

(** [\d] and [int] on ASCII text. *)
Definition is_digit (c : ascii) : bool :=
  let n := N.to_nat (N_of_ascii c) in
  (Nat.leb 48 n && Nat.leb n 57)%bool.

Definition digit_value (c : ascii) : Z := Z.of_N (N_of_ascii c) - 48.

Definition int_of_digits (s : str) : Z :=
  foldl (fun n c => 10 * n + digit_value c) 0 s.

(** [str.isspace] on ASCII, and [str.strip()]. *)
Definition is_space (c : ascii) : bool :=
  let n := N.to_nat (N_of_ascii c) in
  ((Nat.leb 9 n && Nat.leb n 13) || (Nat.leb 28 n && Nat.leb n 32))%bool.

Fixpoint lstrip (s : str) : str :=
  match s with
  | c :: s' => if is_space c then lstrip s' else s
  | [] => []
  end.

Definition strip (s : str) : str := reverse (lstrip (reverse (lstrip s))).

(** [a <= b] on [str]: lexicographic on the character codes. *)
Fixpoint str_leb (a b : str) : bool :=
  match a, b with
  | [], _ => true
  | _ :: _, [] => false
  | x :: a', y :: b' =>
      let nx := N_of_ascii x in
      let ny := N_of_ascii y in
      if (nx <? ny)%N then true
      else if (ny <? nx)%N then false
      else str_leb a' b'
  end.

(** [sorted(l, key=key)]: a stable sort, as Python's. *)
Section sorted.
Context {A : Type} (key : A → str).

Fixpoint insert_by (x : A) (l : list A) : list A :=
  match l with
  | [] => [x]
  | y :: l' =>
      if str_leb (key y) (key x) then y :: insert_by x l' else x :: l
  end.

Definition sorted (l : list A) : list A :=
  foldl (fun acc x => insert_by x acc) [] l.
End sorted.

End Py.

Import Py.

(** A literal file name. *)
Definition lit (s : string) : str := list_ascii_of_string s.

(** ** The regular expression [(\d+)\D*$] *)

Module Regex.

(** [$]: the end of the string, or just before a newline that ends it. *)
Definition at_end (s : str) : bool :=
  match s with
  | [] => true
  | [c] => bool_decide (c = "010"%char)
  | _ => false
  end.

(** [\D*$] at the head of [s]: greedy, giving characters back on failure. *)
Fixpoint nondigits_end (s : str) : bool :=
  match s with
  | c :: s' => (negb (is_digit c) && nondigits_end s') || at_end s
  | [] => at_end s
  end.

(** [\d*\D*$] at the head of [s]: the number of characters [\d*] keeps. *)
Fixpoint digits_nondigits_end (s : str) : option nat :=
  let stop := if nondigits_end s then Some 0%nat else None in
  match s with
  | c :: s' =>
      if is_digit c then
        match digits_nondigits_end s' with
        | Some k => Some (S k)
        | None => stop
        end
      else stop
  | [] => stop
  end.

(** [(\d+)\D*$] at the head of [s]: the length of group 1. *)
Definition match_here (s : str) : option nat :=
  match s with
  | c :: s' => if is_digit c then S <$> digits_nondigits_end s' else None
  | [] => None
  end.

(** [search]: the match at the leftmost position that has one, as
    [(match.start(1), match.end(1))]; [None] when no position has one. *)
Fixpoint search_from (pos : nat) (s : str) : option (nat * nat) :=
  match match_here s with
  | Some len => Some (pos, (pos + len)%nat)
  | None =>
      match s with
      | [] => None
      | _ :: s' => search_from (S pos) s'
      end
  end.

Definition search_last_numerical (file : str) : option (nat * nat) :=
  search_from 0 file.

End Regex.

(** ** The host: Blender and the file system *)

(** An image data block: [size] and the sequential list of R G B A
    components, row after row from the bottom row up. *)
Record Image := {
  size : Z * Z;
  pixels : list float;
}.

(** What the add-on asks of [os], [os.path] and [bpy.data.images]. *)
Record Host := {
  isdir : str → bool;
  isfile : str → bool;
  listdir : str → list str;
  join : str → str → str;
  (** [bpy.data.images.load]: the image of a file, or an exception *)
  load_image : str → result Image;
  (** the name Blender gives a new data block that asks for [name] *)
  fresh_name : gset str → str → str;
  (** the name under which [bpy.data.images.load] files a path *)
  basename : str → str;
  (** the pixels of a data block made by [bpy.data.images.new] *)
  blank_pixels : Z → Z → list float;
  (** what [pixels] of such a data block holds once a list has been
      assigned to it: the block stores 8 bits for a component, so a
      component comes back as one of 256 levels *)
  store_pixels : list float → list float;
}.

Inductive RowOrder := top_to_bottom | bottom_to_top.

#[global] Instance RowOrder_eq_dec : EqDecision RowOrder.
Proof. solve_decision. Defined.

(** The stored fields of [TEXTURE_ATLAS_GENERATOR_Properties] that the
    operator reads; [image_count] and [row_count] are getters, below. *)
Record Props := {
  path : str;
  sequence : str;
  column_count : Z;
  row_order : RowOrder;
  output_name : str;
  overwrite_existing : bool;
}.

Abbreviation sequences := (gmap str (list (Z * str))).

(** The module globals. *)
Record Globals := {
  cached_image_sequences : sequences;
  cached_image_sequences_path : option str;
  cached_image_sequences_dirty : bool;
}.

(** An image data block of Blender: its name and the image. *)
Record Block := {
  block_name : str;
  block_image : Image;
}.

(** [bpy.data.images]: the data blocks that exist, under the handles by
    which Python refers to them; handles are never used twice. *)
Record Images := {
  blocks : gmap nat Block;
  next_block : nat;
}.

Record World := {
  globals : Globals;
  bpy_data_images : Images;
  (** the directories listed with [listdir] so far, latest first *)
  listed : list str;
}.

Definition initial_globals : Globals :=
  {| cached_image_sequences := ∅;
     cached_image_sequences_path := None;
     cached_image_sequences_dirty := false |}.

(** ** Exceptions and state *)

Definition M (A : Type) : Type := World → result A * World.

#[global] Instance M_ret : MRet M := λ A a w, (Ok a, w).
#[global] Instance M_bind : MBind M := λ A B f m w,
  match m w with
  | (Ok a, w') => f a w'
  | (Raise e, w') => (Raise e, w')
  end.

Definition raise {A} (e : exn) : M A := λ w, (Raise e, w).
Definition lift {A} (r : result A) : M A := λ w, (r, w).
Definition get_globals : M Globals := λ w, (Ok (globals w), w).
Definition set_globals (g : Globals) : M unit := λ w,
  (Ok (), {| globals := g; bpy_data_images := bpy_data_images w;
             listed := listed w |}).
Definition get_images : M Images := λ w, (Ok (bpy_data_images w), w).
Definition set_images (imgs : Images) : M unit := λ w,
  (Ok (), {| globals := globals w; bpy_data_images := imgs;
             listed := listed w |}).
(** The world after [listdir(dir)]. *)
Definition listing (dir : str) (w : World) : World :=
  {| globals := globals w; bpy_data_images := bpy_data_images w;
     listed := dir :: listed w |}.
Definition log_listdir (dir : str) : M unit := λ w, (Ok (), listing dir w).

(** [for x in l: body], threading the loop state. *)
Fixpoint for_each {A S} (body : S → A → result S) (s : S) (l : list A)
  : result S :=
  match l with
  | [] => Ok s
  | x :: l' =>
      match body s x with
      | Ok s' => for_each body s' l'
      | Raise e => Raise e
      end
  end.

(** ** Sequence discovery *)

(** The first half of the body of the loop over [files]: the schema and
    the frame number of [file]. *)
Definition schema_and_frame (file : str) : result (str * Z) :=
  match Regex.search_last_numerical file with
  | None => Raise AttributeError
  | Some (start1, end1) =>
      let schema := take start1 file ++ ["#"%char] ++ drop end1 file in
      let frame := int_of_digits (take (end1 - start1) (drop start1 file)) in
      Ok (schema, frame)
  end.

(** The body of the loop over [files]. *)
Definition group_file (image_sequences : sequences) (file : str)
  : result sequences :=
  match schema_and_frame file with
  | Raise e => Raise e
  | Ok (schema, frame) =>
      match image_sequences !! schema with
      | None => Ok (<[schema := [(frame, file)]]> image_sequences)
      | Some members =>
          Ok (<[schema := members ++ [(frame, file)]]> image_sequences)
      end
  end.

Definition group_files (files : list str) : result sequences :=
  for_each group_file ∅ files.

Section addon.
Context (h : Host).

(** [[f for f in listdir(path) if isfile(join(path, f))]] *)
Definition regular_files (dir : str) : list str :=
  filter (λ f, isfile h (join h dir f) = true) (listdir h dir).

Definition discover_image_sequences_in_folder (path : str) : M sequences :=
  let path := strip path in
  if isdir h path then
    _ ← log_listdir path;
    lift (group_files (regular_files path))
  else mret ∅.

Definition get_image_sequences_in_folder (path : str) : M sequences :=
  g ← get_globals;
  _ ← (if bool_decide (Some path ≠ cached_image_sequences_path g)
          || cached_image_sequences_dirty g
       then
         found ← discover_image_sequences_in_folder path;
         set_globals {| cached_image_sequences := found;
                        cached_image_sequences_path := Some path;
                        cached_image_sequences_dirty := false |}
       else mret ());
  g ← get_globals;
  mret (cached_image_sequences g).

(** [TEXTURE_ATLAS_GENERATOR_OT_mark_image_sequences_cache_dirty.execute] *)
Definition mark_image_sequences_cache_dirty : M unit :=
  g ← get_globals;
  set_globals {| cached_image_sequences := cached_image_sequences g;
                 cached_image_sequences_path := cached_image_sequences_path g;
                 cached_image_sequences_dirty := true |}.

End addon.

(** ** Tile compositing *)

(** The loop that loads the tiles keeps the largest width and height. *)
Definition grow_max_size (max_size : Z * Z) (img : Image) : Z * Z :=
  (if (size img).1 >? max_size.1 then (size img).1 else max_size.1,
   if (size img).2 >? max_size.2 then (size img).2 else max_size.2).

Definition max_size_of (images : list Image) : Z * Z :=
  foldl grow_max_size (0, 0) images.

Definition tilemap_size_of (max_size : Z * Z) (column_count row_count : Z)
  : Z * Z :=
  (max_size.1 * column_count, max_size.2 * row_count).

(** [[0.0, 0.0, 0.0, 1.0] * tilemap_size[0] * tilemap_size[1]] *)
Definition background_pixel : list float :=
  [0%float; 0%float; 0%float; 1%float].

Definition background (tilemap_size : Z * Z) : list float :=
  list_mul (list_mul background_pixel tilemap_size.1) tilemap_size.2.

Definition row_index_of (row_order : RowOrder) (row_count column_count i : Z)
  : Z :=
  match row_order with
  | top_to_bottom => row_count - 1 - floor_div i column_count
  | bottom_to_top => floor_div i column_count
  end.

Definition column_index_of (column_count i : Z) : Z := i `mod` column_count.

(** The slice assignment of line [y] of a tile: the bounds of the
    destination slice and the components written there. *)
Definition line_write (tilemap_size : Z * Z) (tile_img : Image)
    (row_index column_index y : Z) : Z * Z * list float :=
  let tile_size := size tile_img in
  let tile_pixels := pixels tile_img in
  (* Each line of tile image *)
  let tile_offset := y * tile_size.1 in
  let tile_x1 := tile_offset * 4 in
  let tile_x2 := tile_x1 + tile_size.1 * 4 in
  (* Destination line on tilemap image *)
  let tilemap_offset :=
    row_index * tilemap_size.1 * tile_size.2 + column_index * tile_size.1 in
  let tilemap_x1 := (tilemap_offset + y * tilemap_size.1) * 4 in
  let tilemap_x2 := tilemap_x1 + tile_size.1 * 4 in
  (tilemap_x1, tilemap_x2, slice_get tile_pixels tile_x1 tile_x2).

(** Copy tile line to tilemap line. *)
Definition copy_line (tilemap_size : Z * Z) (tile_img : Image)
    (row_index column_index : Z) (tilemap_pixels : list float) (y : Z)
  : list float :=
  let '(tilemap_x1, tilemap_x2, line) :=
    line_write tilemap_size tile_img row_index column_index y in
  slice_set tilemap_pixels tilemap_x1 tilemap_x2 line.

(** The body of the loop over the tiles. *)
Definition copy_tile (tilemap_size : Z * Z) (row_order : RowOrder)
    (row_count column_count : Z) (tilemap_pixels : list float)
    (tile : Z * Image) : list float :=
  let '(i, tile_img) := tile in
  let row_index := row_index_of row_order row_count column_count i in
  let column_index := column_index_of column_count i in
  foldl (copy_line tilemap_size tile_img row_index column_index)
        tilemap_pixels (range (size tile_img).2).

(** [enumerate]: the loop runs [i] over [range(0, len(files))] and reads
    [images[i]]; both lists have one entry per file. *)
Definition enumerate {A} (l : list A) : list (Z * A) :=
  zip (range (Z.of_nat (length l))) l.

(** The loop over the tiles, from the background. *)
Definition copy_tiles (tilemap_size : Z * Z) (row_order : RowOrder)
    (row_count column_count : Z) (tiles : list (Z * Image)) : list float :=
  foldl (copy_tile tilemap_size row_order row_count column_count)
        (background tilemap_size) tiles.

(** The tilemap pixels after the first [k] tiles have been copied. *)
Definition copy_tiles_upto (k : nat) (images : list Image)
    (row_order : RowOrder) (row_count column_count : Z) : list float :=
  copy_tiles (tilemap_size_of (max_size_of images) column_count row_count)
             row_order row_count column_count (take k (enumerate images)).

(** The tilemap built from the loaded tiles [images]: what [execute]
    stores when nothing raises. *)
Definition compose (images : list Image) (row_order : RowOrder)
    (row_count column_count : Z) : Image :=
  {| size := tilemap_size_of (max_size_of images) column_count row_count;
     pixels := copy_tiles_upto (length images) images row_order
                               row_count column_count |}.

(** ** The property getters and the operator *)

Section operator.
Context (h : Host).

Definition image_count_get (props : Props) : M Z :=
  image_sequences ← get_image_sequences_in_folder h (path props);
  mret (match image_sequences !! sequence props with
        | Some members => Z.of_nat (length members)
        | None => 0
        end).

(** Reading a property that has a getter, as [self.image_count] and
    [props.row_count]: when the getter raises, Blender reports the
    exception on the console and the read gives 0. *)
Definition property_read (getter : M Z) : M Z := λ w,
  match getter w with
  | (Ok v, w') => (Ok v, w')
  | (Raise _, w') => (Ok 0, w')
  end.

Definition row_count_get (props : Props) : M Z :=
  image_count ← property_read (image_count_get props);
  if column_count props =? 0 then raise ZeroDivisionError
  else mret (ceil_div image_count (column_count props)).

(** [bpy.data.images.keys()] *)
Definition images_keys (imgs : Images) : gset str :=
  list_to_set (block_name <$> (map_to_list (blocks imgs)).*2).

(** [bpy.data.images[name]], as a handle. *)
Definition images_find (name : str) (imgs : Images) : option nat :=
  (λ found, found.2.1)
    <$> list_find (λ kv, block_name kv.2 = name) (map_to_list (blocks imgs)).

(** A new data block that asks for the name [name]. *)
Definition images_add (name : str) (img : Image) : M nat :=
  imgs ← get_images;
  let block := {| block_name := fresh_name h (images_keys imgs) name;
                  block_image := img |} in
  _ ← set_images {| blocks := <[next_block imgs := block]> (blocks imgs);
                    next_block := S (next_block imgs) |};
  mret (next_block imgs).

(** [bpy.data.images.load(filepath)] *)
Definition images_load (filepath : str) : M nat :=
  img ← lift (load_image h filepath);
  images_add (basename h filepath) img.

(** [bpy.data.images.new(name, width, height)] *)
Definition images_new (name : str) (width height : Z) : M nat :=
  images_add name {| size := (width, height);
                     pixels := blank_pixels h width height |}.

(** Reading [img.size] or [img.pixels]; a data block that was removed
    cannot be read. *)
Definition images_read (img : nat) : M Image :=
  imgs ← get_images;
  match blocks imgs !! img with
  | Some block => mret (block_image block)
  | None => raise ReferenceError
  end.

(** [img.pixels = pixels], for a data block made by
    [bpy.data.images.new]. *)
Definition images_write (img : nat) (pixels : list float) : M unit :=
  imgs ← get_images;
  match blocks imgs !! img with
  | Some block =>
      set_images
        {| blocks := <[img := {| block_name := block_name block;
                                 block_image :=
                                   {| size := size (block_image block);
                                      pixels := store_pixels h pixels |} |}]>
                       (blocks imgs);
           next_block := next_block imgs |}
  | None => raise ReferenceError
  end.

(** [bpy.data.images.remove(img)] *)
Definition images_remove (img : nat) : M unit :=
  imgs ← get_images;
  match blocks imgs !! img with
  | Some _ => set_images {| blocks := delete img (blocks imgs);
                            next_block := next_block imgs |}
  | None => raise ReferenceError
  end.

(** The loop that loads the tiles: the data blocks made, in order, and
    the largest width and height among them. *)
Fixpoint load_tiles (folder_path : str) (files : list str)
    (images : list nat) (max_size : Z * Z) : M (list nat * (Z * Z)) :=
  match files with
  | [] => mret (images, max_size)
  | file :: files' =>
      img ← images_load (join h folder_path file);
      tile ← images_read img;
      load_tiles folder_path files' (images ++ [img])
                 (grow_max_size max_size tile)
  end.

(** The loop that copies the tiles: turn [i] reads the size and the
    pixels of [images[i]], divides by [column_count] for the row and the
    column, and copies the lines of the tile. *)
Fixpoint copy_images (tilemap_size : Z * Z) (row_order : RowOrder)
    (row_count column_count : Z) (images : list (Z * nat))
    (tilemap_pixels : list float) : M (list float) :=
  match images with
  | [] => mret tilemap_pixels
  | (i, img) :: images' =>
      tile_img ← images_read img;
      if column_count =? 0 then raise ZeroDivisionError
      else
        copy_images tilemap_size row_order row_count column_count images'
          (copy_tile tilemap_size row_order row_count column_count
                     tilemap_pixels (i, tile_img))
  end.

Fixpoint remove_tiles (images : list nat) : M unit :=
  match images with
  | [] => mret ()
  | img :: images' => _ ← images_remove img; remove_tiles images'
  end.

(** [TEXTURE_ATLAS_GENERATOR_OT_generate_texture_atlas.execute]; the
    result is the generated image.  The progress bar, the report and the
    active image of the editor are left out. *)
Definition execute (props : Props) : M nat :=
  let folder_path := path props in
  image_sequences ← get_image_sequences_in_folder h folder_path;
  members ← match image_sequences !! sequence props with
            | Some members => mret members
            | None => raise KeyError
            end;
  let files := snd <$> sorted snd members in
  row_count ← property_read (row_count_get props);
  let column_count := column_count props in
  (* Load tile images, get max size while doing so *)
  '(images, max_size) ← load_tiles folder_path files [] (0, 0);
  (* Create tilemap image *)
  let tilemap_size := tilemap_size_of max_size column_count row_count in
  imgs ← get_images;
  _ ← (if overwrite_existing props
          && bool_decide (output_name props ∈ images_keys imgs)
       then
         match images_find (output_name props) imgs with
         | Some existing => images_remove existing
         | None => raise KeyError
         end
       else mret ());
  (* Blender will automatically add numeric prefix if already exists *)
  tilemap_img ← images_new (output_name props) tilemap_size.1 tilemap_size.2;
  (* Copy tile pixel data into tilemap image *)
  tilemap_pixels ← copy_images tilemap_size (row_order props) row_count
                                column_count (enumerate images)
                                (background tilemap_size);
  _ ← images_write tilemap_img tilemap_pixels;
  (* Cleanup *)
  _ ← remove_tiles images;
  mret tilemap_img.

End operator.

(** ** Vocabulary of the properties *)

Definition digit (c : ascii) : Prop := is_digit c = true.
Definition nondigit (c : ascii) : Prop := is_digit c = false.

(** [file] splits as [pre ++ digits ++ post] around its last run of
    digits: [digits] is a non-empty run, no digit follows it, and it cannot
    be extended to the left. *)
Record last_digit_run (file pre digits post : str) : Prop := {
  run_split : file = pre ++ digits ++ post;
  run_nonempty : digits ≠ [];
  run_digits : Forall digit digits;
  run_suffix : Forall nondigit post;
  run_maximal : ∀ c, last pre = Some c → nondigit c;
}.

(** The mask of a file name split that way. *)
Definition mask_of (pre post : str) : str := pre ++ ["#"%char] ++ post.

(** The members that the files [files] contribute to the group [schema],
    in the order of [files]. *)
Definition members_of (schema : str) (files : list str) : list (Z * str) :=
  omap (λ file,
          match schema_and_frame file with
          | Ok (schema', frame) =>
              if decide (schema' = schema) then Some (frame, file) else None
          | Raise _ => None
          end) files.

(** ** Example hosts *)

Module Sample.

(** An image of one colour, every component [v]. *)
Definition solid (width height : Z) (v : float) : Image :=
  {| size := (width, height);
     pixels := list_mul [v; v; v; v] (width * height) |}.

(** A component as an 8-bit data block gives it back: the level
    [floor(255 * v + 0.5)], between 0 and 255, over 255. *)
Fixpoint byte_level (fuel : nat) (threshold scaled level : float) : float :=
  match fuel with
  | O => level
  | S fuel' =>
      if PrimFloat.leb threshold scaled
      then byte_level fuel' (threshold + 1) scaled (level + 1)
      else level
  end.

Definition store_component (v : float) : float :=
  (byte_level 255 0.5 (v * 255) 0 / 255)%float.

(** A host with the single directory [dir], holding [files] (listed in
    that order), POSIX paths and 8-bit data blocks. *)
Definition host (dir : str) (files : list (str * Image)) : Host :=
  {| isdir := λ p, bool_decide (p = dir);
     isfile := λ p, bool_decide (p ∈ (λ f, dir ++ lit "/" ++ f.1) <$> files);
     listdir := λ p, if bool_decide (p = dir) then fst <$> files else [];
     join := λ a b, a ++ lit "/" ++ b;
     load_image := λ p,
       match list_find (λ f, dir ++ lit "/" ++ f.1 = p) files with
       | Some (_, (_, img)) => Ok img
       | None => Raise RuntimeError
       end;
     fresh_name := λ names name,
       if bool_decide (name ∈ names) then name ++ lit ".001" else name;
     basename := λ p, drop (S (length dir)) p;
     blank_pixels := λ width height,
       list_mul [0%float; 0%float; 0%float; 0%float] (width * height);
     store_pixels := λ pixels, store_component <$> pixels |}.

(** The world when the add-on has just been registered. *)
Definition fresh_world : World :=
  {| globals := initial_globals;
     bpy_data_images := {| blocks := ∅; next_block := 0 |};
     listed := [] |}.

Definition frames : list (str * Image) :=
  [(lit "frame_002.png", solid 2 2 0.5%float);
   (lit "frame_001.png", solid 4 4 0.25%float)].

Definition frames_and_readme : list (str * Image) :=
  frames ++ [(lit "README", solid 1 1 1%float)].

End Sample.

(** Every group has a member. *)
Definition groups_nonempty (image_sequences : sequences) : Prop :=
  ∀ schema members, image_sequences !! schema = Some members → members ≠ [].

(** The world with other globals. *)
Definition with_globals (g : Globals) (w : World) : World :=
  {| globals := g; bpy_data_images := bpy_data_images w; listed := listed w |}.

(** The cache answers for [path]: it holds the result for that path and has
    not been marked dirty. *)
Definition cache_hit (path : str) (g : Globals) : bool :=
  bool_decide (cached_image_sequences_path g = Some path)
  && negb (cached_image_sequences_dirty g).

(** A well-formed image: four components for each of its
    [width * height] pixels. *)
Record Image_wf (img : Image) : Prop := {
  wf_width : 0 ≤ (size img).1;
  wf_height : 0 ≤ (size img).2;
  wf_pixels : Z.of_nat (length (pixels img)) = (size img).1 * (size img).2 * 4;
}.

(** [m] is the largest of the numbers [l]. *)
Definition is_max (m : Z) (l : list Z) : Prop :=
  m ∈ l ∧ ∀ x, x ∈ l → x ≤ m.

(** [r] is [n / c] rounded up. *)
Definition is_ceil (r n c : Z) : Prop := (r - 1) * c < n ≤ r * c.

(** The R G B A components of pixel number [p] of a list of components. *)
Definition nth_pixel (l : list float) (p : Z) : list float :=
  slice_get l (p * 4) (p * 4 + 4).

(** The R G B A components of the pixel in column [x] of row [y]. *)
Definition pixel_at (img : Image) (x y : Z) : list float :=
  nth_pixel (pixels img) (y * (size img).1 + x).

(** The pixel is the background pixel. *)
Definition is_background (px : list float) : bool :=
  match px with
  | [r; g; b; a] =>
      Leibniz.eqb r 0 && Leibniz.eqb g 0 && Leibniz.eqb b 0 && Leibniz.eqb a 1
  | _ => false
  end.

(** Every pixel of the cell in row [row] (from the bottom) and column
    [column] of the grid is the background pixel. *)
Definition cell_is_background (img : Image) (cell_size : Z * Z)
    (row column : Z) : bool :=
  forallb (λ y,
    forallb (λ x,
      is_background (pixel_at img (column * cell_size.1 + x)
                                  (row * cell_size.2 + y)))
      (range cell_size.1))
    (range cell_size.2).

(** The cells of the grid, as (row, column), that are all background. *)
Definition background_cells (img : Image) (cell_size : Z * Z)
    (row_count column_count : Z) : list (Z * Z) :=
  row ← range row_count;
  column ← range column_count;
  if cell_is_background img cell_size row column then [(row, column)] else [].

Module Tiles.
Import Sample.

(** A large tile followed by a smaller one. *)
Definition large_small : list Image :=
  [solid 4 4 0.25%float; solid 2 2 0.5%float].

(** Three tiles for a grid of two columns; the second is smaller. *)
Definition three : list Image :=
  [solid 4 4 0.25%float; solid 3 3 0.5%float; solid 4 4 0.75%float].

(** Three tiles for a grid of two columns; the first is smaller. *)
Definition small_first : list Image :=
  [solid 2 2 0.5%float; solid 4 4 0.25%float; solid 4 4 0.75%float].
End Tiles.

(** The pixel in column [X] of row [Y] lies in the cell in row [r] (from
    the bottom) and column [col] of a grid of cells of [cw] by [ch]. *)
Definition in_cell (cw ch r col X Y : Z) : Prop :=
  (r * ch ≤ Y < r * ch + ch) ∧ (col * cw ≤ X < col * cw + cw).

(** Handles in use are below the next handle. *)
Definition images_wf (imgs : Images) : Prop :=
  ∀ img, is_Some (blocks imgs !! img) → (img < next_block imgs)%nat.

(** What holds of the world between the calls of the add-on. *)
Definition world_inv (w : World) : Prop :=
  groups_nonempty (cached_image_sequences (globals w)) ∧
  images_wf (bpy_data_images w).

(** A computation keeps a property of the world, however it ends. *)
Definition preserves {A} (P : World → Prop) (m : M A) : Prop :=
  ∀ w r w', P w → m w = (r, w') → P w'.

(** One call of an entry point of the add-on. *)
Inductive step : World → World → Prop :=
| step_sequences h path w r w' :
    get_image_sequences_in_folder h path w = (r, w') → step w w'
| step_row_count h props w r w' :
    row_count_get h props w = (r, w') → step w w'
| step_mark_dirty w r w' :
    mark_image_sequences_cache_dirty w = (r, w') → step w w'
| step_execute h props w r w' :
    execute h props w = (r, w') → step w w'.

(** The schema of a file name, when the regular expression matches it. *)
Definition schema_of (file : str) : option str :=
  match schema_and_frame file with
  | Ok (schema, _) => Some schema
  | Raise _ => None
  end.

(** The number of members of all the groups together. *)
Definition add_members (schema : str) (members : list (Z * str)) (n : nat)
  : nat := (length members + n)%nat.

Definition member_count (image_sequences : sequences) : nat :=
  map_fold add_members 0%nat image_sequences.

(** [a <= b] on [str], as a relation, and the order of the values by
    their keys. *)
Definition str_le (a b : str) : Prop := str_leb a b = true.

Definition key_le {A} (key : A → str) (a b : A) : Prop :=
  str_le (key a) (key b).

(** The part of the panel's [draw] that counts the empty tiles: the number
    on the label ["... empty Tile(s)!"], if the label is drawn. *)
Definition empty_tiles_label (h : Host) (props : Props) : M (option Z) :=
  image_count ← image_count_get h props;
  if 0 <? image_count then
    row_count ← row_count_get h props;
    image_count' ← image_count_get h props;
    let unused_tiles := column_count props * row_count - image_count' in
    mret (if 0 <? unused_tiles then Some unused_tiles else None)
  else mret None.

(** ** The regular expression finds the last run of digits *)

Section regex_facts.
Import Regex.

Lemma digit_not_newline c : digit c → c ≠ "010"%char.
Proof. intros Hd ->. discriminate Hd. Qed.

Lemma nondigits_end_spec s : nondigits_end s = true ↔ Forall nondigit s.
Proof.
  induction s as [|c s IH]; simpl.
  - split; [constructor | done].
  - rewrite orb_true_iff, andb_true_iff, negb_true_iff, IH. split.
    + intros [[Hc Hs] | Hend]; [by constructor |].
      destruct s; [| done].
      apply bool_decide_eq_true in Hend as ->. by repeat constructor.
    + intros [Hc Hs]%Forall_cons. by left.
Qed.

Lemma nondigits_end_digit c s : digit c → nondigits_end (c :: s) = false.
Proof.
  intros Hc. apply not_true_is_false. rewrite nondigits_end_spec.
  intros [Hn _]%Forall_cons. unfold digit, nondigit in *. congruence.
Qed.

Lemma digits_nondigits_end_cons c s :
  digits_nondigits_end (c :: s) =
  let stop := if nondigits_end (c :: s) then Some 0%nat else None in
  if is_digit c then
    match digits_nondigits_end s with
    | Some k => Some (S k)
    | None => stop
    end
  else stop.
Proof. reflexivity. Qed.

(** [\d*\D*$] keeps the whole run of digits at the head, and matches
    exactly when no digit comes after that run. *)
Lemma digits_nondigits_end_spec s k :
  digits_nondigits_end s = Some k ↔
  ∃ ds post, s = ds ++ post ∧ length ds = k ∧
             Forall digit ds ∧ Forall nondigit post.
Proof.
  revert k. induction s as [|c s IH]; intros k.
  - simpl. split.
    + intros [= <-]. exists [], []. by repeat split.
    + intros (ds & post & Hs & <- & _).
      symmetry in Hs. apply app_eq_nil in Hs as [-> _]. done.
  - rewrite digits_nondigits_end_cons. cbv zeta.
    destruct (is_digit c) eqn:Hc.
    + destruct (digits_nondigits_end s) as [k'|] eqn:Hrec.
      * destruct (proj1 (IH k') eq_refl) as (ds & post & -> & <- & Hds & Hpost).
        split.
        -- intros [= <-]. exists (c :: ds), post. repeat split; by try constructor.
        -- intros (ds' & post' & Hs & <- & Hds' & Hpost'). f_equal.
           destruct ds' as [|c' ds'].
           { simpl in Hs. subst post'. apply Forall_cons in Hpost' as [Hn _].
             unfold nondigit in Hn. congruence. }
           simpl in Hs. injection Hs as <- Hs. apply Forall_cons in Hds' as [_ Hds'].
           assert (Some (length ds) = Some (length ds')) as Heq.
           { apply IH. by exists ds', post'. }
           by injection Heq as ->.
      * rewrite nondigits_end_digit by done. split; [done |].
        intros (ds & post & Hs & <- & Hds & Hpost).
        destruct ds as [|c' ds].
        { simpl in Hs. subst post. apply Forall_cons in Hpost as [Hn _].
          unfold nondigit in Hn. congruence. }
        simpl in Hs. injection Hs as <- ->. apply Forall_cons in Hds as [_ Hds].
        assert (None = Some (length ds)) as Heq; [| done].
        apply IH. by exists ds, post.
    + destruct (nondigits_end (c :: s)) eqn:Hend.
      * apply nondigits_end_spec in Hend. split.
        -- intros [= <-]. by exists [], (c :: s).
        -- intros (ds & post & Hs & <- & Hds & Hpost).
           destruct ds as [|c' ds]; [done |].
           simpl in Hs. injection Hs as <- _. apply Forall_cons in Hds as [Hd _].
           unfold digit in Hd. congruence.
      * split; [done |].
        intros (ds & post & Hs & <- & Hds & Hpost).
        destruct ds as [|c' ds].
        { simpl in Hs. subst post. apply nondigits_end_spec in Hpost. congruence. }
        simpl in Hs. injection Hs as <- _. apply Forall_cons in Hds as [Hd _].
        unfold digit in Hd. congruence.
Qed.

Lemma match_here_spec s n :
  match_here s = Some n ↔
  ∃ ds post, s = ds ++ post ∧ length ds = n ∧ ds ≠ [] ∧
             Forall digit ds ∧ Forall nondigit post.
Proof.
  destruct s as [|c s]; simpl.
  - split; [done |]. intros (ds & post & Hs & _ & Hne & _).
    symmetry in Hs. by apply app_eq_nil in Hs as [-> _].
  - destruct (is_digit c) eqn:Hc.
    + rewrite fmap_Some. split.
      * intros (k & (ds & post & -> & <- & Hds & Hpost)%digits_nondigits_end_spec & ->).
        exists (c :: ds), post. repeat split; by try constructor.
      * intros (ds & post & Hs & <- & Hne & Hds & Hpost).
        destruct ds as [|c' ds]; [done |].
        simpl in Hs. injection Hs as <- ->. apply Forall_cons in Hds as [_ Hds].
        exists (length ds). split; [| done].
        apply digits_nondigits_end_spec. by exists ds, post.
    + split; [done |]. intros (ds & post & Hs & <- & Hne & Hds & Hpost).
      destruct ds as [|c' ds]; [done |].
      simpl in Hs. injection Hs as <- _. apply Forall_cons in Hds as [Hd _].
      unfold digit in Hd. congruence.
Qed.

End regex_facts.

Section search_facts.
Import Regex.

Lemma digits_then_nondigits l1 x y l2 ds post :
  l1 ++ x :: y :: l2 = ds ++ post →
  nondigit x → digit y → Forall digit ds → Forall nondigit post → False.
Proof.
  unfold digit, nondigit. revert l1.
  induction ds as [|d ds IH]; intros l1 Heq Hx Hy Hds Hpost.
  - simpl in Heq. subst post.
    apply Forall_app in Hpost as [_ Hpost].
    apply Forall_cons in Hpost as [_ [Hy' _]%Forall_cons]. congruence.
  - apply Forall_cons in Hds as [Hd Hds].
    destruct l1 as [|e l1]; simpl in Heq; injection Heq as -> Heq.
    + congruence.
    + by eapply IH.
Qed.

Lemma search_from_sound pos s a b :
  search_from pos s = Some (a, b) →
  ∃ pre ds post, last_digit_run s pre ds post ∧
                 a = (pos + length pre)%nat ∧ b = (a + length ds)%nat.
Proof.
  revert pos. induction s as [|c s IH]; intros pos.
  - done.
  - cbn [search_from]. destruct (match_here (c :: s)) as [len|] eqn:Hm.
    + intros [= <- <-].
      apply match_here_spec in Hm as (ds & post & Hs & <- & Hne & Hds & Hpost).
      exists [], ds, post. split; [by constructor | simpl; lia].
    + intros (pre & ds & post & [Hs Hne Hds Hpost Hmax] & -> & ->)%IH.
      exists (c :: pre), ds, post. split; [| simpl; lia].
      constructor; try done; [by rewrite Hs |].
      intros x. destruct pre as [|c' pre]; [| by rewrite last_cons_cons; auto].
      intros [= <-]. apply not_true_iff_false. intros Hc.
      assert (match_here (c :: s) = Some (S (length ds))) as Hm'; [| congruence].
      apply match_here_spec. exists (c :: ds), post.
      split_and!; [by rewrite Hs | done | done | by constructor | done].
Qed.

Lemma search_from_complete pos s pre ds post :
  last_digit_run s pre ds post →
  search_from pos s =
    Some ((pos + length pre)%nat, (pos + length pre + length ds)%nat).
Proof.
  intros [-> Hne Hds Hpost Hmax]. revert pos.
  induction pre as [|c pre IH]; intros pos.
  - assert (match_here (ds ++ post) = Some (length ds)) as Hm.
    { apply match_here_spec. by exists ds, post. }
    destruct ds as [|d ds]; [done |].
    cbn [search_from app] in *. rewrite Hm. f_equal. f_equal; simpl; lia.
  - cbn [search_from app].
    destruct (match_here (c :: pre ++ ds ++ post)) as [len|] eqn:Hm.
    + exfalso.
      apply match_here_spec in Hm as (ds0 & post0 & Hs & _ & _ & Hds0 & Hpost0).
      destruct ds as [|y ds]; [done |]. apply Forall_cons in Hds as [Hy _].
      destruct (last (c :: pre)) as [x|] eqn:Hlast;
        [| by apply last_None in Hlast].
      apply last_Some in Hlast as [l1 Hl1].
      change (c :: pre ++ (y :: ds) ++ post)
        with ((c :: pre) ++ y :: ds ++ post) in Hs.
      rewrite Hl1, <- app_assoc in Hs. simpl in Hs.
      eapply digits_then_nondigits; [done | | done..].
      by apply Hmax.
    + rewrite IH.
      * f_equal. f_equal; simpl; lia.
      * intros x Hx. apply Hmax. destruct pre; [done |].
        by rewrite last_cons_cons.
Qed.

Lemma search_from_is_Some pos s :
  Exists digit s → is_Some (search_from pos s).
Proof.
  revert pos. induction s as [|c s IH]; intros pos Hex.
  - by apply Exists_nil in Hex.
  - cbn [search_from]. destruct (match_here (c :: s)) as [len|] eqn:Hm; [done |].
    apply IH. destruct (decide (Exists digit s)) as [|Hno]; [done |].
    apply Exists_cons in Hex as [Hc | ?]; [| done].
    assert (match_here (c :: s) = Some 1%nat) as Hm'; [| congruence].
    apply match_here_spec. exists [c], s.
    split_and!; [done | done | done | by repeat constructor |].
    apply not_Exists_Forall in Hno; [| intros x; apply _].
    eapply Forall_impl; [done |]. intros x Hx. by apply not_true_iff_false.
Qed.

Lemma search_from_None pos s :
  Forall nondigit s → search_from pos s = None.
Proof.
  intros Hs. destruct (search_from pos s) as [[a b]|] eqn:Hsearch; [| done].
  apply search_from_sound in Hsearch as (pre & ds & post & [-> Hne Hds _ _] & _).
  destruct ds as [|d ds]; [done |].
  apply Forall_app in Hs as [_ [[Hd _]%Forall_cons _]%Forall_app].
  apply Forall_cons in Hds as [Hd' _]. unfold digit, nondigit in *. congruence.
Qed.

End search_facts.

(** The three parts of a file name are determined by the file name. *)
Lemma last_digit_run_unique file pre ds post pre' ds' post' :
  last_digit_run file pre ds post → last_digit_run file pre' ds' post' →
  pre = pre' ∧ ds = ds' ∧ post = post'.
Proof.
  intros H1 H2.
  pose proof (search_from_complete 0 _ _ _ _ H1) as E1.
  pose proof (search_from_complete 0 _ _ _ _ H2) as E2.
  rewrite E1 in E2. injection E2 as Hpre Hds. simpl in *.
  destruct H1 as [Hs1 _ _ _ _], H2 as [Hs2 _ _ _ _].
  rewrite Hs1 in Hs2.
  apply app_inj_1 in Hs2 as [-> Hs2]; [| done].
  apply app_inj_1 in Hs2 as [-> ->]; [done | lia].
Qed.

(** ** One file: its schema and frame number *)

Lemma schema_and_frame_run file pre ds post :
  last_digit_run file pre ds post →
  schema_and_frame file = Ok (mask_of pre post, int_of_digits ds).
Proof.
  intros Hrun. unfold schema_and_frame, Regex.search_last_numerical.
  rewrite (search_from_complete 0 _ _ _ _ Hrun). simpl.
  destruct Hrun as [-> _ _ _ _]. unfold mask_of.
  rewrite take_app_length.
  replace (length pre + length ds - length pre)%nat with (length ds) by lia.
  rewrite drop_app_length, take_app_length.
  rewrite app_assoc, <- length_app, drop_app_length. done.
Qed.

Lemma schema_and_frame_Ok file schema frame :
  schema_and_frame file = Ok (schema, frame) →
  ∃ pre ds post, last_digit_run file pre ds post ∧
                 schema = mask_of pre post ∧ frame = int_of_digits ds.
Proof.
  intros Hsf.
  assert (∃ pre ds post, last_digit_run file pre ds post)
    as (pre & ds & post & Hrun).
  { unfold schema_and_frame, Regex.search_last_numerical in Hsf.
    destruct (Regex.search_from 0 file) as [[a b]|] eqn:Hsearch; [| done].
    apply search_from_sound in Hsearch as (pre & ds & post & Hrun & _). eauto. }
  exists pre, ds, post. split; [done |].
  rewrite (schema_and_frame_run _ _ _ _ Hrun) in Hsf. by injection Hsf as <- <-.
Qed.

Lemma schema_and_frame_digit file :
  Exists digit file → ∃ sf, schema_and_frame file = Ok sf.
Proof.
  intros [[a b] Hs]%(search_from_is_Some 0).
  unfold schema_and_frame, Regex.search_last_numerical. rewrite Hs. eauto.
Qed.

Lemma schema_and_frame_no_digit file :
  Forall nondigit file → schema_and_frame file = Raise AttributeError.
Proof.
  intros Hs. unfold schema_and_frame, Regex.search_last_numerical.
  by rewrite search_from_None.
Qed.

(** ** The loop over the files *)

Lemma schema_and_frame_Raise file e :
  schema_and_frame file = Raise e → e = AttributeError.
Proof.
  unfold schema_and_frame.
  destruct (Regex.search_last_numerical file) as [[a b]|]; congruence.
Qed.

Lemma group_file_Ok m file schema frame :
  schema_and_frame file = Ok (schema, frame) →
  group_file m file =
    Ok (<[schema := default [] (m !! schema) ++ [(frame, file)]]> m).
Proof. intros Hsf. unfold group_file. rewrite Hsf. by destruct (m !! schema). Qed.

Lemma members_of_cons schema file files :
  members_of schema (file :: files) =
  match schema_and_frame file with
  | Ok (schema', frame) =>
      if decide (schema' = schema) then (frame, file) :: members_of schema files
      else members_of schema files
  | Raise _ => members_of schema files
  end.
Proof.
  unfold members_of. simpl.
  destruct (schema_and_frame file) as [[schema' frame]|]; [| done].
  by destruct (decide (schema' = schema)).
Qed.

(** What the loop leaves under each key, from any dictionary [m]. *)
Lemma for_each_group_file m files :
  Forall (λ f, ∃ sf, schema_and_frame f = Ok sf) files →
  ∃ m', for_each group_file m files = Ok m' ∧
        ∀ k, m' !! k = match members_of k files with
                       | [] => m !! k
                       | l => Some (default [] (m !! k) ++ l)
                       end.
Proof.
  revert m. induction files as [|file files IH]; intros m Hall.
  - by exists m.
  - apply Forall_cons in Hall as [[[schema frame] Hsf] Hall].
    cbn [for_each]. rewrite (group_file_Ok _ _ _ _ Hsf).
    destruct (IH (<[schema := default [] (m !! schema) ++ [(frame, file)]]> m) Hall)
      as (m' & -> & Hm').
    exists m'. split; [done |]. intros k.
    rewrite Hm', members_of_cons, Hsf. destruct (decide (schema = k)) as [-> |Hne].
    + rewrite lookup_insert_eq. simpl.
      destruct (members_of k files); [done |]. by rewrite <- app_assoc.
    + by rewrite lookup_insert_ne.
Qed.

Lemma for_each_group_file_Raise m files :
  Exists (λ f, ∀ sf, schema_and_frame f ≠ Ok sf) files →
  for_each group_file m files = Raise AttributeError.
Proof.
  revert m. induction files as [|file files IH]; intros m Hex.
  - by apply Exists_nil in Hex.
  - cbn [for_each]. unfold group_file at 1.
    destruct (schema_and_frame file) as [[schema frame]|e] eqn:Hsf.
    + apply Exists_cons in Hex as [Hex | Hex]; [by destruct (Hex (schema, frame)) |].
      destruct (m !! schema); by apply IH.
    + by apply schema_and_frame_Raise in Hsf as ->.
Qed.

(** The groups of [group_files]: a key is present exactly when some file
    has it as its schema, and holds those files in the order of [files]. *)
Lemma group_files_Ok files :
  Forall (λ f, ∃ sf, schema_and_frame f = Ok sf) files →
  ∃ found, group_files files = Ok found ∧
           ∀ k, found !! k = match members_of k files with
                             | [] => None
                             | l => Some l
                             end.
Proof.
  intros Hall. destruct (for_each_group_file ∅ files Hall) as (found & Hrun & Hfound).
  exists found. split; [done |]. intros k. rewrite Hfound, lookup_empty. done.
Qed.

Lemma group_files_cases files :
  (∃ found, group_files files = Ok found ∧
            Forall (λ f, ∃ sf, schema_and_frame f = Ok sf) files) ∨
  (group_files files = Raise AttributeError ∧
   Exists (λ f, ∀ sf, schema_and_frame f ≠ Ok sf) files).
Proof.
  destruct (decide (Forall (λ f, is_Ok (schema_and_frame f) = true) files))
    as [Hall | Hex].
  - left.
    assert (Forall (λ f, ∃ sf, schema_and_frame f = Ok sf) files) as Hall'.
    { eapply Forall_impl; [exact Hall |]. intros f Hf. unfold is_Ok in Hf.
      destruct (schema_and_frame f); [eauto | done]. }
    destruct (group_files_Ok files Hall') as (found & Hrun & _). eauto.
  - right. apply not_Forall_Exists in Hex; [| intros f; apply _].
    assert (Exists (λ f, ∀ sf, schema_and_frame f ≠ Ok sf) files) as Hex'.
    { eapply Exists_impl; [exact Hex |]. intros f Hf sf Hsf. apply Hf.
      unfold is_Ok. by rewrite Hsf. }
    split; [| done]. by apply for_each_group_file_Raise.
Qed.

Lemma members_of_Permutation k files files' :
  files ≡ₚ files' → members_of k files ≡ₚ members_of k files'.
Proof. intros Hperm. unfold members_of. by rewrite Hperm. Qed.

Lemma elem_of_members_of k files frame file :
  (frame, file) ∈ members_of k files ↔
  file ∈ files ∧ schema_and_frame file = Ok (k, frame).
Proof.
  unfold members_of. rewrite list_elem_of_omap. split.
  - intros (f & Hin & Hf).
    destruct (schema_and_frame f) as [[schema' frame']|] eqn:Hsf; [| done].
    destruct (decide (schema' = k)) as [-> |]; [| done].
    by injection Hf as <- <-.
  - intros [Hin Hsf]. exists file. split; [done |].
    rewrite Hsf. by rewrite decide_True.
Qed.

(** ** Discovery *)

Lemma discover_unfold h path w :
  discover_image_sequences_in_folder h path w =
  if isdir h (strip path)
  then (group_files (regular_files h (strip path)), listing (strip path) w)
  else (Ok ∅, w).
Proof.
  unfold discover_image_sequences_in_folder. by destruct (isdir h (strip path)).
Qed.

(** The body of the loop, on a file name that has a digit: the file joins
    the group of its mask, whatever the dictionary holds. *)
Lemma group_file_last_digit_run m file :
  Exists digit file →
  ∃ pre ds post,
    last_digit_run file pre ds post ∧
    group_file m file =
      Ok (<[mask_of pre post :=
              default [] (m !! mask_of pre post) ++ [(int_of_digits ds, file)]]> m).
Proof.
  intros [[schema frame] Hsf]%schema_and_frame_digit.
  destruct (schema_and_frame_Ok _ _ _ Hsf) as (pre & ds & post & Hrun & -> & ->).
  exists pre, ds, post. split; [done |]. by apply group_file_Ok.
Qed.

(** C2: a directory that holds a regular file without any digit in its name
    makes discovery raise [AttributeError] ([search] gives [None], and
    [None.start(1)] is evaluated): the file is not skipped and no mapping is
    returned. *)
Theorem discover_raises_without_digits h path w file :
  isdir h (strip path) = true →
  file ∈ regular_files h (strip path) →
  Forall nondigit file →
  (discover_image_sequences_in_folder h path w).1 = Raise AttributeError.
Proof.
  intros Hdir Hfile Hnodigit. rewrite discover_unfold, Hdir. simpl.
  apply for_each_group_file_Raise, Exists_exists. exists file. split; [done |].
  intros sf. by rewrite schema_and_frame_no_digit.
Qed.

Lemma discover_raises_without_digits_witness :
  (discover_image_sequences_in_folder
     (Sample.host (lit "/render") Sample.frames_and_readme)
     (lit "/render") Sample.fresh_world).1 = Raise AttributeError.
Proof.
  apply (discover_raises_without_digits _ _ _ (lit "README")).
  - reflexivity.
  - vm_compute. do 2 right. left.
  - vm_compute. repeat constructor.
Defined.

(** C3: a file name that has a digit splits as [pre ++ ds ++ post] around
    its last run of digits [ds], and the body of the loop adds it, with
    frame number the value of [ds], to the group keyed by
    [pre ++ "#" ++ post].  When every regular file of the directory has a
    digit in its name, discovery returns a mapping in which each of these
    files is a member of that group, and every member of every group is such
    a file, so that putting its digits back in place of that ['#'] gives the
    file name. *)
Theorem discover_groups_by_last_digit_run h path w :
  (∀ image_sequences file,
     Exists digit file →
     ∃ pre ds post,
       last_digit_run file pre ds post ∧
       let mask := pre ++ ["#"%char] ++ post in
       group_file image_sequences file
       = Ok (<[mask := default [] (image_sequences !! mask)
                       ++ [(int_of_digits ds, file)]]> image_sequences)) ∧
  (isdir h (strip path) = true →
   Forall (Exists digit) (regular_files h (strip path)) →
   ∃ found,
     (discover_image_sequences_in_folder h path w).1 = Ok found ∧
     (∀ file, file ∈ regular_files h (strip path) →
        ∃ pre ds post members,
          last_digit_run file pre ds post ∧
          found !! (pre ++ ["#"%char] ++ post) = Some members ∧
          (int_of_digits ds, file) ∈ members) ∧
     (∀ mask members frame file,
        found !! mask = Some members → (frame, file) ∈ members →
        file ∈ regular_files h (strip path) ∧
        ∃ pre ds post,
          last_digit_run file pre ds post ∧
          mask = pre ++ ["#"%char] ++ post ∧
          file = pre ++ ds ++ post ∧
          frame = int_of_digits ds)).
Proof.
  split; [intros m file; apply group_file_last_digit_run |].
  intros Hdir Hdigits. rewrite discover_unfold, Hdir. simpl.
  set (files := regular_files h (strip path)) in *.
  assert (Forall (λ f, ∃ sf, schema_and_frame f = Ok sf) files) as Hall.
  { eapply Forall_impl; [exact Hdigits |]. intros f. apply schema_and_frame_digit. }
  destruct (group_files_Ok files Hall) as (found & -> & Hfound).
  exists found. split; [done |]. split.
  - intros file Hin.
    destruct (proj1 (Forall_forall _ _) Hall file Hin) as [[schema frame] Hsf].
    destruct (schema_and_frame_Ok _ _ _ Hsf) as (pre & ds & post & Hrun & -> & ->).
    assert ((int_of_digits ds, file) ∈ members_of (mask_of pre post) files) as Hmem.
    { by apply elem_of_members_of. }
    exists pre, ds, post, (members_of (mask_of pre post) files).
    split; [done |]. split; [| done].
    pose proof (Hfound (mask_of pre post)) as Hk.
    destruct (members_of (mask_of pre post) files); [| exact Hk].
    by apply elem_of_nil in Hmem.
  - intros mask members frame file Hlookup Hmem.
    rewrite Hfound in Hlookup.
    assert (members = members_of mask files) as ->.
    { destruct (members_of mask files); [done | by injection Hlookup]. }
    apply elem_of_members_of in Hmem as [Hin Hsf]. split; [done |].
    destruct (schema_and_frame_Ok _ _ _ Hsf) as (pre & ds & post & Hrun & -> & ->).
    exists pre, ds, post. split_and!; try done. by destruct Hrun.
Qed.

Lemma discover_groups_by_last_digit_run_witness :
  ∃ found,
    (discover_image_sequences_in_folder
       (Sample.host (lit "/render") Sample.frames)
       (lit " /render") Sample.fresh_world).1 = Ok found ∧
    found !! lit "frame_#.png" =
      Some [(2, lit "frame_002.png"); (1, lit "frame_001.png")].
Proof.
  destruct (discover_groups_by_last_digit_run
              (Sample.host (lit "/render") Sample.frames)
              (lit " /render") Sample.fresh_world)
    as [_ Hdir]. destruct Hdir as (found & Hfound & _ & _).
  - reflexivity.
  - apply (bool_decide_unpack _). by vm_compute.
  - exists found. split; [exact Hfound |].
    vm_compute in Hfound. injection Hfound as <-. reflexivity.
Defined.

(** C9: listing the same files in another order gives the same outcome:
    the same exception, or mappings with the same keys whose groups hold the
    same members. *)
Theorem discover_order_independent h h' path w w' :
  isdir h (strip path) = isdir h' (strip path) →
  regular_files h (strip path) ≡ₚ regular_files h' (strip path) →
  match (discover_image_sequences_in_folder h path w).1,
        (discover_image_sequences_in_folder h' path w').1 with
  | Ok found, Ok found' =>
      dom found = dom found' ∧
      ∀ mask members members',
        found !! mask = Some members → found' !! mask = Some members' →
        members ≡ₚ members'
  | Raise e, Raise e' => e = e'
  | _, _ => False
  end.
Proof.
  intros Hdir Hperm. rewrite !discover_unfold, <- Hdir.
  destruct (isdir h (strip path)); simpl;
    [| split; [done | intros ??? Hl; by rewrite lookup_empty in Hl]].
  set (files := regular_files h (strip path)) in *.
  set (files' := regular_files h' (strip path)) in *.
  destruct (group_files_cases files) as [(found & Hrun & Hall) | [Hrun Hex]];
    destruct (group_files_cases files') as [(found' & Hrun' & Hall') | [Hrun' Hex']];
    rewrite Hrun, Hrun'; try done.
  - destruct (group_files_Ok files Hall) as (found1 & Hrun1 & Hfound).
    destruct (group_files_Ok files' Hall') as (found1' & Hrun1' & Hfound').
    assert (found1 = found) as -> by congruence.
    assert (found1' = found') as -> by congruence.
    pose proof (λ k, members_of_Permutation k _ _ Hperm) as Hmembers.
    split.
    + apply set_eq. intros k. rewrite !elem_of_dom, Hfound, Hfound'.
      specialize (Hmembers k).
      destruct (members_of k files), (members_of k files'); try done.
      * by apply Permutation_nil_cons in Hmembers.
      * symmetry in Hmembers. by apply Permutation_nil_cons in Hmembers.
    + intros k l l'. rewrite Hfound, Hfound'. specialize (Hmembers k).
      destruct (members_of k files), (members_of k files'); try done.
      by intros [= <-] [= <-].
  - rewrite <- Hperm in Hex'. apply Exists_exists in Hex' as (f & Hin & Hf).
    apply (proj1 (Forall_forall _ _) Hall) in Hin as [sf Hsf]. by destruct (Hf sf).
  - rewrite Hperm in Hex. apply Exists_exists in Hex as (f & Hin & Hf).
    apply (proj1 (Forall_forall _ _) Hall') in Hin as [sf Hsf]. by destruct (Hf sf).
Qed.

Lemma discover_order_independent_witness :
  match (discover_image_sequences_in_folder
           (Sample.host (lit "/render") Sample.frames)
           (lit "/render") Sample.fresh_world).1,
        (discover_image_sequences_in_folder
           (Sample.host (lit "/render") (reverse Sample.frames))
           (lit "/render") Sample.fresh_world).1 with
  | Ok found, Ok found' =>
      dom found = dom found' ∧
      ∀ mask members members',
        found !! mask = Some members → found' !! mask = Some members' →
        members ≡ₚ members'
  | Raise e, Raise e' => e = e'
  | _, _ => False
  end.
Proof.
  apply discover_order_independent.
  - reflexivity.
  - vm_compute. apply perm_swap.
Defined.

(** ** The cache *)

Lemma get_image_sequences_unfold h path w :
  get_image_sequences_in_folder h path w =
  if cache_hit path (globals w)
  then (Ok (cached_image_sequences (globals w)), w)
  else match discover_image_sequences_in_folder h path w with
       | (Ok found, w') =>
           (Ok found,
            with_globals {| cached_image_sequences := found;
                            cached_image_sequences_path := Some path;
                            cached_image_sequences_dirty := false |} w')
       | (Raise e, w') => (Raise e, w')
       end.
Proof.
  unfold get_image_sequences_in_folder, cache_hit.
  destruct w as [[cached cached_path dirty] imgs ls].
  unfold mbind, M_bind, get_globals. simpl.
  destruct (decide (cached_path = Some path)) as [-> | Hne].
  - rewrite bool_decide_eq_false_2 by (by intros []).
    rewrite bool_decide_eq_true_2 by done.
    destruct dirty; simpl; [| done].
    by destruct (discover_image_sequences_in_folder _ _ _) as [[found|e] w'].
  - rewrite bool_decide_eq_true_2 by congruence.
    rewrite bool_decide_eq_false_2 by done. simpl.
    by destruct (discover_image_sequences_in_folder _ _ _) as [[found|e] w'].
Qed.

(** C8: a call for the cached path with the dirty flag clear returns the
    cached mapping and leaves the world as it is, nothing is listed;
    any other call runs the discovery, and when that returns, stores its
    result with the path, clears the dirty flag and returns that result. *)
Theorem get_image_sequences_single_slot h path w :
  get_image_sequences_in_folder h path w =
  if bool_decide (cached_image_sequences_path (globals w) = Some path)
     && negb (cached_image_sequences_dirty (globals w))
  then (Ok (cached_image_sequences (globals w)), w)
  else match discover_image_sequences_in_folder h path w with
       | (Ok found, w') =>
           (Ok found,
            {| globals := {| cached_image_sequences := found;
                             cached_image_sequences_path := Some path;
                             cached_image_sequences_dirty := false |};
               bpy_data_images := bpy_data_images w';
               listed := listed w' |})
       | (Raise e, w') => (Raise e, w')
       end.
Proof. apply get_image_sequences_unfold. Qed.

(** The stored result is what the next call for the same path returns,
    whatever the directory holds by then. *)
Lemma get_image_sequences_memoized h h' path w found w' :
  get_image_sequences_in_folder h path w = (Ok found, w') →
  get_image_sequences_in_folder h' path w' = (Ok found, w').
Proof.
  rewrite !get_image_sequences_unfold.
  destruct (cache_hit path (globals w)) eqn:Hhit.
  - intros [= <- <-]. by rewrite Hhit.
  - destruct (discover_image_sequences_in_folder h path w) as [[found1|e] w1];
      [| done].
    intros [= <- <-]. unfold cache_hit. simpl.
    by rewrite bool_decide_eq_true_2.
Qed.

(** Marking the cache dirty makes the next call scan again. *)
Lemma mark_dirty_misses path w w' :
  mark_image_sequences_cache_dirty w = (Ok (), w') →
  cache_hit path (globals w') = false.
Proof.
  intros [= <-]. unfold cache_hit. simpl. apply andb_false_r.
Qed.

(** A call changes neither the images nor, on a hit, the list of scans. *)
Lemma get_image_sequences_images h path w r w' :
  get_image_sequences_in_folder h path w = (r, w') →
  bpy_data_images w' = bpy_data_images w.
Proof.
  rewrite get_image_sequences_unfold, discover_unfold.
  destruct (cache_hit path (globals w)); [by intros [= <- <-] |].
  destruct (isdir h (strip path)); [| by intros [= <- <-]].
  by destruct (group_files _); intros [= <- <-].
Qed.

(** ** Groups are never empty *)

Lemma group_files_nonempty files found :
  group_files files = Ok found → groups_nonempty found.
Proof.
  intros Hrun.
  destruct (group_files_cases files) as [(found' & Hrun' & Hall) | [Hrun' _]];
    [| congruence].
  destruct (group_files_Ok files Hall) as (found1 & Hrun1 & Hfound).
  assert (found1 = found) as -> by congruence.
  intros k l. rewrite Hfound. destruct (members_of k files); [done |].
  by intros [= <-].
Qed.

Lemma discover_nonempty h path w found w' :
  discover_image_sequences_in_folder h path w = (Ok found, w') →
  groups_nonempty found.
Proof.
  rewrite discover_unfold. destruct (isdir h (strip path)).
  - intros [= Hrun _]. by eapply group_files_nonempty.
  - intros [= <- _] k l. by rewrite lookup_empty.
Qed.

Lemma initial_globals_nonempty :
  groups_nonempty (cached_image_sequences initial_globals).
Proof. intros k l. simpl. by rewrite lookup_empty. Qed.

Lemma get_image_sequences_nonempty h path w r w' :
  groups_nonempty (cached_image_sequences (globals w)) →
  get_image_sequences_in_folder h path w = (r, w') →
  groups_nonempty (cached_image_sequences (globals w')) ∧
  ∀ found, r = Ok found → groups_nonempty found.
Proof.
  intros Hinv. rewrite get_image_sequences_unfold.
  destruct (cache_hit path (globals w)).
  - intros [= <- <-]. split; [done |]. by intros found [= <-].
  - destruct (discover_image_sequences_in_folder h path w) as [[found|e] w1] eqn:Hd.
    + apply discover_nonempty in Hd. intros [= <- <-]. split; [done |].
      by intros found' [= <-].
    + revert Hd. rewrite discover_unfold. destruct (isdir h (strip path)).
      * intros [= _ <-] [= <- <-]. by split.
      * done.
Qed.

Lemma mark_dirty_nonempty w w' :
  groups_nonempty (cached_image_sequences (globals w)) →
  mark_image_sequences_cache_dirty w = (Ok (), w') →
  groups_nonempty (cached_image_sequences (globals w')).
Proof. by intros Hinv [= <-]. Qed.

(** ** No images, no tilemap *)

(** C7: when the selected sequence has no images ([image_count] is 0), the
    operator raises [KeyError] where it looks the sequence up, before any
    image is loaded and before the tilemap image and its pixel list are
    made: [bpy.data.images] is left as it was. *)
Theorem execute_rejects_empty_sequence h props w :
  groups_nonempty (cached_image_sequences (globals w)) →
  (image_count_get h props w).1 = Ok 0 →
  ∃ w', execute h props w = (Raise KeyError, w') ∧
        bpy_data_images w' = bpy_data_images w.
Proof.
  intros Hinv Hcount. unfold image_count_get, execute in *.
  unfold mbind, M_bind in *.
  destruct (get_image_sequences_in_folder h (path props) w)
    as [[found|e] w1] eqn:Hget; [| done].
  destruct (get_image_sequences_nonempty _ _ _ _ _ Hinv Hget) as [_ Hfound].
  specialize (Hfound found eq_refl).
  apply get_image_sequences_images in Hget. simpl in Hcount.
  destruct (found !! sequence props) as [members|] eqn:Hlookup.
  - apply Hfound in Hlookup. destruct members; [done |].
    injection Hcount as Hcount. simpl in Hcount. lia.
  - by exists w1.
Qed.

Lemma execute_rejects_empty_sequence_witness :
  ∃ w', execute (Sample.host (lit "/render") [])
                {| path := lit "/render"; sequence := lit "none";
                   column_count := 1; row_order := top_to_bottom;
                   output_name := lit "Texture Atlas";
                   overwrite_existing := false |}
                Sample.fresh_world = (Raise KeyError, w') ∧
        bpy_data_images w' = bpy_data_images Sample.fresh_world.
Proof.
  apply execute_rejects_empty_sequence.
  - intros k l. simpl. by rewrite lookup_empty.
  - reflexivity.
Defined.

(** ** Lists and slices *)

Lemma length_list_mul {A} (l : list A) n :
  length (list_mul l n) = (length l * Z.to_nat n)%nat.
Proof.
  unfold list_mul. induction (Z.to_nat n) as [|k IH]; simpl; [lia |].
  rewrite length_app, IH. lia.
Qed.

Lemma slice_bound_inside len i : 0 ≤ i ≤ len → slice_bound len i = i.
Proof.
  intros Hi. unfold slice_bound. destruct (Z.ltb_spec i 0); lia.
Qed.

Lemma length_slice_get {A} (l : list A) i j :
  0 ≤ i ≤ j → j ≤ Z.of_nat (length l) →
  Z.of_nat (length (slice_get l i j)) = j - i.
Proof.
  intros Hij Hj. unfold slice_get. rewrite !slice_bound_inside by lia.
  rewrite length_take, length_drop. lia.
Qed.

Lemma length_slice_set {A} (l v : list A) i j :
  0 ≤ i ≤ j → j ≤ Z.of_nat (length l) → Z.of_nat (length v) = j - i →
  length (slice_set l i j v) = length l.
Proof.
  intros Hij Hj Hv. unfold slice_set. rewrite !slice_bound_inside by lia.
  rewrite !length_app, length_take, length_drop. lia.
Qed.

Lemma foldl_invariant {A B} (P : A → Prop) (f : A → B → A) a l :
  P a → (∀ a x, P a → x ∈ l → P (f a x)) → P (foldl f a l).
Proof.
  revert a. induction l as [|x l IH]; intros a Ha Hstep; [done |].
  simpl. apply IH.
  - apply Hstep; [done | left].
  - intros a' x' Ha' Hx'. apply Hstep; [done | by right].
Qed.

Lemma elem_of_enumerate {A} (l : list A) i x :
  (i, x) ∈ enumerate l ↔ 0 ≤ i ∧ l !! Z.to_nat i = Some x.
Proof.
  unfold enumerate, range. rewrite list_elem_of_lookup. split.
  - intros [k Hk]. apply lookup_zip_Some in Hk as [Hi Hx].
    apply lookup_seqZ in Hi as [-> _]. rewrite Z.add_0_l, Nat2Z.id.
    split; [lia | done].
  - intros [Hi Hx]. exists (Z.to_nat i). apply lookup_zip_Some. split; [| done].
    apply lookup_seqZ. apply lookup_lt_Some in Hx. lia.
Qed.

Lemma elem_of_range n y : y ∈ range n ↔ 0 ≤ y < n.
Proof. unfold range. rewrite elem_of_seqZ. lia. Qed.

(** ** The cell size *)

Lemma grow_max_size_fst acc img :
  (grow_max_size acc img).1 = Z.max acc.1 (size img).1.
Proof. unfold grow_max_size. simpl. destruct (Z.gtb_spec (size img).1 acc.1); lia. Qed.

Lemma grow_max_size_snd acc img :
  (grow_max_size acc img).2 = Z.max acc.2 (size img).2.
Proof. unfold grow_max_size. simpl. destruct (Z.gtb_spec (size img).2 acc.2); lia. Qed.

Lemma foldl_grow_max_size acc images :
  let m := foldl grow_max_size acc images in
  (acc.1 ≤ m.1 ∧ (∀ img, img ∈ images → (size img).1 ≤ m.1) ∧
   (m.1 = acc.1 ∨ ∃ img, img ∈ images ∧ (size img).1 = m.1)) ∧
  (acc.2 ≤ m.2 ∧ (∀ img, img ∈ images → (size img).2 ≤ m.2) ∧
   (m.2 = acc.2 ∨ ∃ img, img ∈ images ∧ (size img).2 = m.2)).
Proof.
  revert acc. induction images as [|img images IH]; intros acc; simpl.
  - split; (split_and!; [lia | by intros ? ?%elem_of_nil | by left]).
  - destruct (IH (grow_max_size acc img)) as [(Ha1 & Hb1 & Hc1) (Ha2 & Hb2 & Hc2)].
    rewrite grow_max_size_fst in Ha1, Hc1. rewrite grow_max_size_snd in Ha2, Hc2.
    split; split_and!.
    + lia.
    + intros x [-> | Hx]%elem_of_cons; [lia | by apply Hb1].
    + destruct Hc1 as [Hc1 | (x & Hx & Hc1)].
      * destruct (Z.max_spec acc.1 (size img).1) as [[_ Hmax] | [_ Hmax]].
        -- right. exists img. split; [left | lia].
        -- left. lia.
      * right. exists x. split; [by right | done].
    + lia.
    + intros x [-> | Hx]%elem_of_cons; [lia | by apply Hb2].
    + destruct Hc2 as [Hc2 | (x & Hx & Hc2)].
      * destruct (Z.max_spec acc.2 (size img).2) as [[_ Hmax] | [_ Hmax]].
        -- right. exists img. split; [left | lia].
        -- left. lia.
      * right. exists x. split; [by right | done].
Qed.

(** The cell is at least as large as every tile. *)
Lemma max_size_of_bounds images img :
  img ∈ images →
  (size img).1 ≤ (max_size_of images).1 ∧ (size img).2 ≤ (max_size_of images).2.
Proof.
  intros Hin. destruct (foldl_grow_max_size (0, 0) images)
    as [(_ & Hb1 & _) (_ & Hb2 & _)]. split; [by apply Hb1 | by apply Hb2].
Qed.

Lemma max_size_of_nonneg images :
  0 ≤ (max_size_of images).1 ∧ 0 ≤ (max_size_of images).2.
Proof.
  destruct (foldl_grow_max_size (0, 0) images) as [(Ha1 & _) (Ha2 & _)]. done.
Qed.

(** For tiles of non-negative sizes the cell size is the largest width and
    the largest height. *)
Lemma max_size_of_is_max images :
  images ≠ [] → Forall Image_wf images →
  is_max (max_size_of images).1 ((λ img, (size img).1) <$> images) ∧
  is_max (max_size_of images).2 ((λ img, (size img).2) <$> images).
Proof.
  intros Hne Hwf.
  destruct (foldl_grow_max_size (0, 0) images)
    as [(Ha1 & Hb1 & Hc1) (Ha2 & Hb2 & Hc2)]. simpl in *.
  fold (max_size_of images) in *.
  destruct images as [|img0 images]; [done |].
  assert (Image_wf img0) as [Hw0 Hh0 _] by (by apply Forall_cons in Hwf as [? _]).
  pose proof (Hb1 img0 (list_elem_of_here _ _)) as Hle1.
  pose proof (Hb2 img0 (list_elem_of_here _ _)) as Hle2.
  split; split.
  - apply list_elem_of_fmap. destruct Hc1 as [Hc1 | (x & Hx & Hc1)]; [| by eauto].
    exists img0. split; [lia | left].
  - intros x (img & -> & Hin)%list_elem_of_fmap. by apply Hb1.
  - apply list_elem_of_fmap. destruct Hc2 as [Hc2 | (x & Hx & Hc2)]; [| by eauto].
    exists img0. split; [lia | left].
  - intros x (img & -> & Hin)%list_elem_of_fmap. by apply Hb2.
Qed.

(** ** The grid *)

Lemma ceil_div_is_ceil n c : 1 ≤ c → is_ceil (ceil_div n c) n c.
Proof.
  intros Hc. unfold is_ceil, ceil_div.
  pose proof (Z.div_mod (- n) c ltac:(lia)) as Hdiv.
  pose proof (Z.mod_pos_bound (- n) c ltac:(lia)) as Hmod. nia.
Qed.

Lemma is_ceil_unique r r' n c : is_ceil r n c → is_ceil r' n c → r = r'.
Proof. unfold is_ceil. nia. Qed.

Lemma grid_position_bounds n c i :
  1 ≤ c → 0 ≤ i < n →
  0 ≤ floor_div i c ≤ ceil_div n c - 1 ∧ 0 ≤ i `mod` c < c.
Proof.
  intros Hc Hi. pose proof (ceil_div_is_ceil n c Hc) as Hceil.
  unfold is_ceil, floor_div in *.
  pose proof (Z.div_mod i c ltac:(lia)) as Hdiv.
  pose proof (Z.mod_pos_bound i c ltac:(lia)) as Hmod.
  split; [| done]. split; nia.
Qed.

Lemma row_index_of_bounds row_order n c i :
  1 ≤ c → 0 ≤ i < n →
  0 ≤ row_index_of row_order (ceil_div n c) c i < ceil_div n c.
Proof.
  intros Hc Hi. destruct (grid_position_bounds n c i Hc Hi) as [Hrow _].
  unfold row_index_of. destruct row_order; lia.
Qed.

(** The row and the column that the loop computes for a tile.  With
    [row_count = ceil(n / column_count)], tile [i] of [n] gets the column
    [i mod column_count] and, with [grid_row = floor(i / column_count)],
    the row [row_count - 1 - grid_row] from the bottom when the rows run
    top to bottom and the row [grid_row] from the bottom otherwise; both
    are positions of the grid.  Tile 0 gets column 0 of the top row
    ([row_count - 1] from the bottom), respectively of the bottom row. *)
Lemma tile_grid_position n column_count i :
  1 ≤ column_count → 0 ≤ i < n →
  let row_count := ceil_div n column_count in
  let grid_row := i / column_count in
  (row_index_of top_to_bottom row_count column_count i
     = row_count - 1 - grid_row ∧
   row_index_of bottom_to_top row_count column_count i = grid_row ∧
   column_index_of column_count i = i `mod` column_count) ∧
  (0 ≤ grid_row < row_count ∧ 0 ≤ i `mod` column_count < column_count) ∧
  (row_index_of top_to_bottom row_count column_count 0 = row_count - 1 ∧
   row_index_of bottom_to_top row_count column_count 0 = 0 ∧
   column_index_of column_count 0 = 0).
Proof.
  intros Hc Hi row_count grid_row.
  destruct (grid_position_bounds n column_count i Hc Hi) as [Hrow Hcol].
  unfold floor_div in Hrow. fold grid_row row_count in Hrow.
  split; [done |]. split; [lia |].
  unfold row_index_of, column_index_of, floor_div.
  rewrite Z.div_0_l, Z.mod_0_l by lia. lia.
Qed.

(** For a non-empty list of [n] tiles and [column_count >= 1], the
    tilemap of [compose] is [column_count] times the largest tile width
    wide and [ceil(n / column_count)] times the largest tile height high. *)
Lemma compose_size images row_order column_count :
  images ≠ [] → Forall Image_wf images → 1 ≤ column_count →
  let n := Z.of_nat (length images) in
  ∃ cell_width cell_height row_count,
    is_max cell_width ((λ img, (size img).1) <$> images) ∧
    is_max cell_height ((λ img, (size img).2) <$> images) ∧
    is_ceil row_count n column_count ∧
    size (compose images row_order (ceil_div n column_count) column_count)
      = (cell_width * column_count, cell_height * row_count).
Proof.
  intros Hne Hwf Hc n.
  destruct (max_size_of_is_max images Hne Hwf) as [Hw Hh].
  exists (max_size_of images).1, (max_size_of images).2, (ceil_div n column_count).
  split_and!; [done | done | by apply ceil_div_is_ceil | done].
Qed.

(** ** Every write stays inside the tilemap *)

Section bounds.
Context (images : list Image) (row_order : RowOrder) (column_count : Z).
Context (Hwf : Forall Image_wf images) (Hcolumns : 1 ≤ column_count).

Let row_count := ceil_div (Z.of_nat (length images)) column_count.
Let tilemap_size :=
  tilemap_size_of (max_size_of images) column_count row_count.
Let len := tilemap_size.1 * tilemap_size.2 * 4.

Lemma row_count_nonneg : 0 ≤ row_count.
Proof.
  pose proof (ceil_div_is_ceil (Z.of_nat (length images)) column_count Hcolumns)
    as Hceil. unfold is_ceil in Hceil. fold row_count in Hceil. nia.
Qed.

Lemma length_background :
  Z.of_nat (length (background tilemap_size)) = len.
Proof.
  unfold background. rewrite !length_list_mul. simpl.
  destruct (max_size_of_nonneg images) as [Hw Hh].
  pose proof row_count_nonneg as Hr. unfold len. simpl. nia.
Qed.

Lemma line_write_bounds i tile_img y :
  images !! i = Some tile_img → 0 ≤ y < (size tile_img).2 →
  let '(x1, x2, line) :=
    line_write tilemap_size tile_img
               (row_index_of row_order row_count column_count (Z.of_nat i))
               (column_index_of column_count (Z.of_nat i)) y in
  0 ≤ x1 ∧ x1 ≤ x2 ∧ x2 ≤ len ∧ Z.of_nat (length line) = x2 - x1.
Proof.
  intros Hi Hy. unfold line_write.
  assert (tile_img ∈ images) as Hin by (by eapply list_elem_of_lookup_2).
  destruct (proj1 (Forall_forall _ _) Hwf _ Hin) as [Hw Hh Hpx].
  destruct (max_size_of_bounds _ _ Hin) as [Hmw Hmh].
  pose proof (lookup_lt_Some _ _ _ Hi) as Hlt.
  pose proof (row_index_of_bounds row_order (Z.of_nat (length images))
                column_count (Z.of_nat i) Hcolumns ltac:(lia)) as Hrow.
  destruct (grid_position_bounds (Z.of_nat (length images)) column_count
              (Z.of_nat i) Hcolumns ltac:(lia)) as [_ Hcol].
  fold row_count in Hrow. unfold column_index_of, len, tilemap_size. simpl.
  set (r := row_index_of row_order row_count column_count (Z.of_nat i)) in *.
  set (col := Z.of_nat i `mod` column_count) in *.
  set (tw := (size tile_img).1) in *. set (th := (size tile_img).2) in *.
  set (mw := (max_size_of images).1) in *.
  set (mh := (max_size_of images).2) in *.
  assert (r * th + y ≤ row_count * mh - 1) as Hrows by nia.
  assert (col * tw + tw ≤ column_count * mw) as Hcols by nia.
  assert (0 ≤ r * th + y) as Hrows0 by nia.
  assert (0 ≤ col * tw) as Hcols0 by nia.
  assert (0 ≤ mw * column_count) as HW by nia.
  split_and!.
  - nia.
  - lia.
  - nia.
  - rewrite length_slice_get; [lia | nia | nia].
Qed.

Lemma length_copy_line i tile_img y tilemap_pixels :
  images !! i = Some tile_img → 0 ≤ y < (size tile_img).2 →
  Z.of_nat (length tilemap_pixels) = len →
  Z.of_nat (length (copy_line tilemap_size tile_img
              (row_index_of row_order row_count column_count (Z.of_nat i))
              (column_index_of column_count (Z.of_nat i)) tilemap_pixels y))
  = len.
Proof.
  intros Hi Hy Hlen. unfold copy_line.
  pose proof (line_write_bounds i tile_img y Hi Hy) as Hw.
  destruct (line_write _ _ _ _ _) as [[x1 x2] line].
  destruct Hw as (H1 & H2 & H3 & H4).
  rewrite length_slice_set; lia.
Qed.

Lemma length_copy_tile i tile_img tilemap_pixels :
  images !! i = Some tile_img →
  Z.of_nat (length tilemap_pixels) = len →
  Z.of_nat (length (copy_tile tilemap_size row_order row_count column_count
                              tilemap_pixels (Z.of_nat i, tile_img))) = len.
Proof.
  intros Hi Hlen. unfold copy_tile.
  apply (foldl_invariant (λ px, Z.of_nat (length px) = len)); [done |].
  intros px y Hpx Hy%elem_of_range. by apply length_copy_line.
Qed.

Lemma length_copy_tiles_upto k :
  Z.of_nat (length (copy_tiles_upto k images row_order row_count column_count))
  = len.
Proof.
  unfold copy_tiles_upto, copy_tiles. fold tilemap_size.
  apply (foldl_invariant (λ px, Z.of_nat (length px) = len)).
  - apply length_background.
  - intros px [i tile_img] Hpx Hin%subseteq_take%elem_of_enumerate.
    destruct Hin as [Hi0 Hi]. rewrite <- (Z2Nat.id i) by done.
    by apply length_copy_tile.
Qed.

End bounds.

(** C10: for well-formed tiles and [column_count >= 1], with the row count
    of the property getter, every slice assignment of the copy loop has
    bounds [0 <= x1 <= x2 <= len] within the tilemap pixel list and writes
    exactly [x2 - x1] components, so each of them, and each turn of the loop
    over the tiles, leaves the length of the list at
    [len = width * height * 4]. *)
Theorem copy_tiles_within_tilemap images row_order column_count :
  Forall Image_wf images → 1 ≤ column_count →
  let row_count := ceil_div (Z.of_nat (length images)) column_count in
  let tilemap_size :=
    tilemap_size_of (max_size_of images) column_count row_count in
  let len := tilemap_size.1 * tilemap_size.2 * 4 in
  (∀ i tile_img y,
     images !! i = Some tile_img → 0 ≤ y < (size tile_img).2 →
     let '(x1, x2, line) :=
       line_write tilemap_size tile_img
                  (row_index_of row_order row_count column_count (Z.of_nat i))
                  (column_index_of column_count (Z.of_nat i)) y in
     0 ≤ x1 ∧ x1 ≤ x2 ∧ x2 ≤ len ∧ Z.of_nat (length line) = x2 - x1) ∧
  (∀ i tile_img y tilemap_pixels,
     images !! i = Some tile_img → 0 ≤ y < (size tile_img).2 →
     Z.of_nat (length tilemap_pixels) = len →
     Z.of_nat (length (copy_line tilemap_size tile_img
                 (row_index_of row_order row_count column_count (Z.of_nat i))
                 (column_index_of column_count (Z.of_nat i)) tilemap_pixels y))
     = len) ∧
  (∀ k, Z.of_nat (length (copy_tiles_upto k images row_order
                                           row_count column_count)) = len).
Proof.
  intros Hwf Hc row_count tilemap_size len. split_and!.
  - intros i tile_img y. by apply line_write_bounds.
  - intros i tile_img y tilemap_pixels. by apply length_copy_line.
  - intros k. by apply length_copy_tiles_upto.
Qed.

Lemma copy_tiles_within_tilemap_witness :
  let images := [Sample.solid 4 4 0.25%float; Sample.solid 2 2 0.5%float;
                 Sample.solid 3 5 0.75%float] in
  Z.of_nat (length (copy_tiles_upto 2 images bottom_to_top (ceil_div 3 2) 2))
  = 8 * 10 * 4.
Proof.
  intros images.
  apply (copy_tiles_within_tilemap images bottom_to_top 2).
  - repeat constructor; by vm_compute.
  - lia.
Defined.

(** ** Tiles smaller than the cell *)

(** Where line [y] of a tile is written, for all arguments: in the pixel row
    [row_index * tile height + y], from the pixel column
    [column_index * tile width] on, over the width of the tile. *)
Lemma line_write_position tilemap_size tile_img row_index column_index y :
  let tile_width := (size tile_img).1 in
  let tile_height := (size tile_img).2 in
  let first := (row_index * tile_height + y) * tilemap_size.1
               + column_index * tile_width in
  (line_write tilemap_size tile_img row_index column_index y).1
  = (first * 4, (first + tile_width) * 4).
Proof. unfold line_write. simpl. f_equal; lia. Qed.

(** For a tile that has the size of the cell this is the origin of its
    cell, moved up by [y] rows. *)
Lemma line_write_position_cell_size cell_size row_count column_count
    tile_img row_index column_index y :
  size tile_img = cell_size →
  let tilemap_size := tilemap_size_of cell_size column_count row_count in
  let first := (row_index * cell_size.2 + y) * tilemap_size.1
               + column_index * cell_size.1 in
  (line_write tilemap_size tile_img row_index column_index y).1
  = (first * 4, (first + (size tile_img).1) * 4).
Proof. intros <-. apply line_write_position. Qed.

(** C1, at a 4x4 tile followed by a 2x2 tile in a grid of two columns: the
    cell is 4x4 and the second tile belongs to column 1, whose cell starts
    at pixel column 4 (component 16 of row 0).  The loop writes line 0 of
    that tile at components 8 to 16, that is from pixel column
    [column_index * tile width = 2] on: the pixel at the origin of its cell
    stays background, and pixel column 2, inside the cell of the first tile,
    holds the second tile. *)
Theorem small_tile_misses_its_cell :
  let small := Sample.solid 2 2 0.5%float in
  let out := compose Tiles.large_small top_to_bottom (ceil_div 2 2) 2 in
  max_size_of Tiles.large_small = (4, 4) ∧
  size out = (8, 4) ∧
  row_index_of top_to_bottom (ceil_div 2 2) 2 1 = 0 ∧
  column_index_of 2 1 = 1 ∧
  (line_write (8, 4) small 0 1 0).1 = (8, 16) ∧
  pixel_at out (1 * 4) 0 = background_pixel ∧
  pixel_at out 2 0 = pixel_at small 0 0 ∧
  pixel_at small 0 0 = [0.5; 0.5; 0.5; 0.5]%float.
Proof. by vm_compute. Qed.

(** C6, at three tiles in a grid of two columns, the second one 3x3 in a
    cell of 4x4: the grid has [2 * 2 = 3 + 1] cells, the cell without a tile
    being row 0, column 1; the second tile is written over pixel columns 3
    to 5 of pixel rows 3 to 5, which reaches into that cell, and no cell of
    the tilemap is left all background. *)
Theorem small_tile_spills_into_empty_cell :
  let out := compose Tiles.three top_to_bottom (ceil_div 3 2) 2 in
  max_size_of Tiles.three = (4, 4) ∧
  ceil_div 3 2 * 2 = 3 + 1 ∧
  (row_index_of top_to_bottom (ceil_div 3 2) 2 <$> [0; 1; 2],
   column_index_of 2 <$> [0; 1; 2]) = ([1; 1; 0], [0; 1; 0]) ∧
  pixel_at out (1 * 4 + 0) (0 * 4 + 3) = [0.5; 0.5; 0.5; 0.5]%float ∧
  is_background [0.5; 0.5; 0.5; 0.5]%float = false ∧
  cell_is_background out (4, 4) 0 1 = false ∧
  background_cells out (4, 4) (ceil_div 3 2) 2 = [].
Proof. by vm_compute. Qed.

(** C5, at a 2x2 tile followed by two 4x4 tiles in a grid of two columns,
    top to bottom: the loop computes for tile 0 the row [row_count - 1] from
    the bottom and the column 0, the top-left cell, as the claim says, but
    writes the tile at the pixel rows [row_index * tile height = 2] and 3,
    below that cell, where tile 2 then overwrites it.  The top-left cell is
    left all background and no component of the tilemap comes from tile 0.
    Bottom to top, the same tile does sit at the origin of the bottom-left
    cell. *)
Theorem small_first_tile_misses_top_left_cell :
  let small := Sample.solid 2 2 0.5%float in
  let out := compose Tiles.small_first top_to_bottom (ceil_div 3 2) 2 in
  let out' := compose Tiles.small_first bottom_to_top (ceil_div 3 2) 2 in
  max_size_of Tiles.small_first = (4, 4) ∧
  size out = (8, 8) ∧
  row_index_of top_to_bottom (ceil_div 3 2) 2 0 = ceil_div 3 2 - 1 ∧
  column_index_of 2 0 = 0 ∧
  (line_write (8, 8) small 1 0 0).1 = (2 * 8 * 4, 2 * 8 * 4 + 2 * 4) ∧
  cell_is_background out (4, 4) (ceil_div 3 2 - 1) 0 = true ∧
  existsb (λ c, Leibniz.eqb c 0.5) (pixels out) = false ∧
  pixel_at out' 0 0 = pixel_at small 0 0 ∧
  pixel_at small 0 0 = [0.5; 0.5; 0.5; 0.5]%float.
Proof. by vm_compute. Qed.

(** ** Reading a slice after a slice assignment *)

Section slices.
Context {A : Type}.
Implicit Types l v : list A.

Lemma slice_get_inside l i j :
  0 ≤ i ≤ j → j ≤ Z.of_nat (length l) →
  slice_get l i j = take (Z.to_nat j - Z.to_nat i) (drop (Z.to_nat i) l).
Proof.
  intros Hij Hj. unfold slice_get. rewrite !slice_bound_inside by lia.
  f_equal. lia.
Qed.

Lemma slice_set_inside l i j v :
  0 ≤ i ≤ j → j ≤ Z.of_nat (length l) →
  slice_set l i j v = take (Z.to_nat i) l ++ v ++ drop (Z.to_nat j) l.
Proof.
  intros Hij Hj. unfold slice_set. rewrite !slice_bound_inside by lia.
  do 3 f_equal. lia.
Qed.

Lemma take_drop_take l (a b : nat) :
  (a ≤ b)%nat → take (b - a) (drop a l) = drop a (take b l).
Proof.
  intros Hab. rewrite take_drop_commute. do 2 f_equal. lia.
Qed.

(** A slice that ends before the assigned one, or starts after it. *)
Lemma slice_get_set_outside l i j v a b :
  0 ≤ i ≤ j → j ≤ Z.of_nat (length l) → Z.of_nat (length v) = j - i →
  0 ≤ a ≤ b → b ≤ Z.of_nat (length l) → b ≤ i ∨ j ≤ a →
  slice_get (slice_set l i j v) a b = slice_get l a b.
Proof.
  intros Hij Hj Hv Hab Hb Hout.
  rewrite (slice_get_inside l) by lia.
  rewrite slice_get_inside by (rewrite ?length_slice_set; lia).
  rewrite slice_set_inside by lia.
  set (i' := Z.to_nat i). set (j' := Z.to_nat j).
  set (a' := Z.to_nat a). set (b' := Z.to_nat b).
  assert (i' ≤ j' ∧ a' ≤ b' ∧ j' ≤ length l ∧ b' ≤ length l
          ∧ length v = j' - i' ∧ (b' ≤ i' ∨ j' ≤ a'))%nat
    as (Hij' & Hab' & Hj' & Hb' & Hv' & Hout') by lia.
  clearbody i' j' a' b'. clear - Hij' Hab' Hj' Hb' Hv' Hout'.
  destruct Hout' as [Hbefore | Hafter].
  - rewrite drop_app_le by (rewrite length_take; lia).
    rewrite take_app_le by (rewrite length_drop, length_take; lia).
    rewrite !take_drop_take by lia. f_equal.
    rewrite take_take. f_equal. lia.
  - rewrite app_assoc, drop_app_ge by (rewrite length_app, length_take; lia).
    rewrite length_app, length_take, drop_drop. do 2 f_equal. lia.
Qed.

(** A slice within the assigned one. *)
Lemma slice_get_set_within l i j v a b :
  0 ≤ i ≤ j → j ≤ Z.of_nat (length l) → Z.of_nat (length v) = j - i →
  i ≤ a ≤ b → b ≤ j →
  slice_get (slice_set l i j v) a b = slice_get v (a - i) (b - i).
Proof.
  intros Hij Hj Hv Hab Hb.
  rewrite (slice_get_inside v) by lia.
  rewrite slice_get_inside by (rewrite ?length_slice_set; lia).
  rewrite slice_set_inside by lia.
  set (i' := Z.to_nat i). set (j' := Z.to_nat j).
  set (a' := Z.to_nat a). set (b' := Z.to_nat b).
  replace (Z.to_nat (b - i) - Z.to_nat (a - i))%nat with (b' - a')%nat by lia.
  replace (Z.to_nat (a - i)) with (a' - i')%nat by lia.
  assert (i' ≤ a' ∧ a' ≤ b' ∧ b' ≤ j' ∧ j' ≤ length l ∧ length v = j' - i')%nat
    as (Hia' & Hab' & Hbj' & Hj' & Hv') by lia.
  clearbody i' j' a' b'. clear - Hia' Hab' Hbj' Hj' Hv'.
  rewrite drop_app_ge by (rewrite length_take; lia).
  rewrite length_take, Nat.min_l by lia.
  rewrite drop_app_le by lia.
  rewrite take_app_le by (rewrite length_drop; lia). done.
Qed.

(** A slice of a slice. *)
Lemma slice_get_slice_get l i j a b :
  0 ≤ i ≤ j → j ≤ Z.of_nat (length l) → 0 ≤ a ≤ b → b ≤ j - i →
  slice_get (slice_get l i j) a b = slice_get l (i + a) (i + b).
Proof.
  intros Hij Hj Hab Hb.
  rewrite (slice_get_inside l (i + a)) by lia.
  rewrite slice_get_inside by (rewrite ?length_slice_get; lia).
  rewrite slice_get_inside by lia.
  set (i' := Z.to_nat i). set (j' := Z.to_nat j).
  set (a' := Z.to_nat a). set (b' := Z.to_nat b).
  replace (Z.to_nat (i + b) - Z.to_nat (i + a))%nat with (b' - a')%nat by lia.
  replace (Z.to_nat (i + a)) with (i' + a')%nat by lia.
  assert (i' ≤ j' ∧ a' ≤ b' ∧ b' ≤ j' - i' ∧ j' ≤ length l)%nat
    as (Hij' & Hab' & Hb' & Hj') by lia.
  clearbody i' j' a' b'. clear - Hij' Hab' Hb' Hj'.
  rewrite (take_drop_take l i' j') by lia. rewrite drop_drop.
  rewrite !take_drop_commute, take_take. do 2 f_equal. lia.
Qed.

End slices.

(** ** Tiles that have the size of the cell *)

Section cell_sized_tiles.
Context (cw ch row_count column_count : Z).
Context (Hcw : 0 ≤ cw) (Hch : 0 ≤ ch).
Context (Hrows : 0 ≤ row_count) (Hcolumns : 1 ≤ column_count).

Let tilemap_size := tilemap_size_of (cw, ch) column_count row_count.
Let W := cw * column_count.
Let len := W * (ch * row_count) * 4.

(** Line [y] of a tile in the cell [(r, col)], as pixel numbers. *)
Lemma line_write_cell tile_img r col y :
  size tile_img = (cw, ch) →
  line_write tilemap_size tile_img r col y =
  (((r * ch + y) * W + col * cw) * 4,
   ((r * ch + y) * W + col * cw) * 4 + cw * 4,
   slice_get (pixels tile_img) (y * cw * 4) (y * cw * 4 + cw * 4)).
Proof.
  intros Hsize. unfold line_write, tilemap_size, tilemap_size_of.
  rewrite Hsize. cbn [fst snd]. fold W. f_equal. f_equal; ring.
Qed.

Lemma line_write_cell_bounds tile_img r col y :
  Image_wf tile_img → size tile_img = (cw, ch) →
  0 ≤ r < row_count → 0 ≤ col < column_count → 0 ≤ y < ch →
  0 ≤ ((r * ch + y) * W + col * cw) * 4 ∧
  ((r * ch + y) * W + col * cw) * 4 + cw * 4 ≤ len ∧
  Z.of_nat (length (slice_get (pixels tile_img) (y * cw * 4)
                              (y * cw * 4 + cw * 4))) = cw * 4.
Proof.
  intros [_ _ Hpx] Hsize Hr Hcol Hy. rewrite Hsize in Hpx. cbn [fst snd] in Hpx.
  unfold len, W.
  assert (r * ch + y ≤ row_count * ch - 1) by nia.
  assert (0 ≤ r * ch + y) by nia.
  assert (col * cw + cw ≤ column_count * cw) by nia.
  assert (0 ≤ col * cw) by nia.
  assert (0 ≤ cw * column_count) by nia.
  split_and!; [nia | nia |].
  rewrite length_slice_get; [lia | nia | nia].
Qed.

Lemma length_copy_line_cell tile_img r col y tilemap_pixels :
  Image_wf tile_img → size tile_img = (cw, ch) →
  0 ≤ r < row_count → 0 ≤ col < column_count → 0 ≤ y < ch →
  Z.of_nat (length tilemap_pixels) = len →
  Z.of_nat (length (copy_line tilemap_size tile_img r col tilemap_pixels y))
  = len.
Proof.
  intros Hwf Hsize Hr Hcol Hy Hlen. unfold copy_line.
  rewrite line_write_cell by done.
  destruct (line_write_cell_bounds tile_img r col y) as (H1 & H2 & H3); try done.
  rewrite length_slice_set; lia.
Qed.

(** A pixel of the line that is copied. *)
Lemma copy_line_pixel_written tile_img r col y x tilemap_pixels :
  Image_wf tile_img → size tile_img = (cw, ch) →
  0 ≤ r < row_count → 0 ≤ col < column_count → 0 ≤ y < ch → 0 ≤ x < cw →
  Z.of_nat (length tilemap_pixels) = len →
  nth_pixel (copy_line tilemap_size tile_img r col tilemap_pixels y)
            ((r * ch + y) * W + (col * cw + x))
  = nth_pixel (pixels tile_img) (y * cw + x).
Proof.
  intros Hwf Hsize Hr Hcol Hy Hx Hlen. unfold copy_line, nth_pixel.
  rewrite line_write_cell by done.
  destruct (line_write_cell_bounds tile_img r col y) as (H1 & H2 & H3); try done.
  destruct Hwf as [_ _ Hpx]. rewrite Hsize in Hpx. cbn [fst snd] in Hpx.
  rewrite slice_get_set_within by lia.
  rewrite slice_get_slice_get by nia.
  f_equal; lia.
Qed.

(** A pixel of the tilemap outside that line. *)
Lemma copy_line_pixel_kept tile_img r col y X Y tilemap_pixels :
  Image_wf tile_img → size tile_img = (cw, ch) →
  0 ≤ r < row_count → 0 ≤ col < column_count → 0 ≤ y < ch →
  0 ≤ X < W → 0 ≤ Y < ch * row_count →
  ¬ (Y = r * ch + y ∧ col * cw ≤ X < col * cw + cw) →
  Z.of_nat (length tilemap_pixels) = len →
  nth_pixel (copy_line tilemap_size tile_img r col tilemap_pixels y) (Y * W + X)
  = nth_pixel tilemap_pixels (Y * W + X).
Proof.
  intros Hwf Hsize Hr Hcol Hy HX HY Hout Hlen. unfold copy_line, nth_pixel.
  rewrite line_write_cell by done.
  destruct (line_write_cell_bounds tile_img r col y) as (H1 & H2 & H3); try done.
  assert (col * cw + cw ≤ W) by (unfold W; nia).
  assert (0 ≤ col * cw) by nia.
  assert (0 ≤ Y * W + X ∧ (Y * W + X) * 4 + 4 ≤ len) as [Hp0 Hp1]
    by (unfold len; nia).
  apply slice_get_set_outside; try lia.
  destruct (Z.lt_trichotomy Y (r * ch + y)) as [Hlt | [Heq | Hgt]].
  - left. nia.
  - subst Y. destruct (Z.lt_ge_cases X (col * cw)); [left; nia |].
    right. assert (col * cw + cw ≤ X) by lia. nia.
  - right. nia.
Qed.


(** The lines of one tile: after the first [m] of them. *)
Lemma copy_lines_cell tile_img r col tilemap_pixels (m : nat) :
  Image_wf tile_img → size tile_img = (cw, ch) →
  0 ≤ r < row_count → 0 ≤ col < column_count → Z.of_nat m ≤ ch →
  Z.of_nat (length tilemap_pixels) = len →
  let after := foldl (copy_line tilemap_size tile_img r col) tilemap_pixels
                     (range (Z.of_nat m)) in
  Z.of_nat (length after) = len ∧
  (∀ x y, 0 ≤ x < cw → 0 ≤ y < Z.of_nat m →
     nth_pixel after ((r * ch + y) * W + (col * cw + x))
     = nth_pixel (pixels tile_img) (y * cw + x)) ∧
  (∀ X Y, 0 ≤ X < W → 0 ≤ Y < ch * row_count → ¬ in_cell cw ch r col X Y →
     nth_pixel after (Y * W + X) = nth_pixel tilemap_pixels (Y * W + X)).
Proof.
  intros Hwf Hsize Hr Hcol Hm Hlen. induction m as [|m IH].
  - simpl. split_and!; [done | lia | done].
  - unfold range in *. rewrite seqZ_S, foldl_app, Z.add_0_l. cbn [foldl].
    destruct IH as (IHlen & IHin & IHout); [lia |].
    set (before := foldl _ tilemap_pixels (seqZ 0 (Z.of_nat m))) in *.
    split_and!.
    + apply length_copy_line_cell; try done. lia.
    + intros x y Hx Hy. destruct (decide (y = Z.of_nat m)) as [-> | Hne].
      * apply copy_line_pixel_written; try done. lia.
      * rewrite copy_line_pixel_kept; try done; try nia. apply IHin; lia.
    + intros X Y HX HY Hout. rewrite copy_line_pixel_kept; try done; try lia.
      * by apply IHout.
      * intros [-> Hcolumn]. apply Hout. unfold in_cell. lia.
Qed.

(** One turn of the loop over the tiles. *)
Lemma copy_tile_cell row_order i tile_img tilemap_pixels :
  Image_wf tile_img → size tile_img = (cw, ch) →
  0 ≤ row_index_of row_order row_count column_count i < row_count →
  0 ≤ column_index_of column_count i < column_count →
  Z.of_nat (length tilemap_pixels) = len →
  let r := row_index_of row_order row_count column_count i in
  let col := column_index_of column_count i in
  let after := copy_tile tilemap_size row_order row_count column_count
                         tilemap_pixels (i, tile_img) in
  Z.of_nat (length after) = len ∧
  (∀ x y, 0 ≤ x < cw → 0 ≤ y < ch →
     nth_pixel after ((r * ch + y) * W + (col * cw + x))
     = nth_pixel (pixels tile_img) (y * cw + x)) ∧
  (∀ X Y, 0 ≤ X < W → 0 ≤ Y < ch * row_count → ¬ in_cell cw ch r col X Y →
     nth_pixel after (Y * W + X) = nth_pixel tilemap_pixels (Y * W + X)).
Proof.
  intros Hwf Hsize Hr Hcol Hlen r col. unfold copy_tile.
  rewrite Hsize. cbn [snd].
  destruct (copy_lines_cell tile_img r col tilemap_pixels (Z.to_nat ch))
    as (Hafter & Hin & Hout); try done; [lia |].
  rewrite Z2Nat.id in * by done. done.
Qed.

End cell_sized_tiles.

(** Two cells that share a pixel are the same cell. *)
Lemma in_cell_inj cw ch r col r' col' X Y :
  in_cell cw ch r col X Y → in_cell cw ch r' col' X Y → r = r' ∧ col = col'.
Proof. unfold in_cell. intros [? ?] [? ?]. split; nia. Qed.

(** Two tiles in the same cell are the same tile. *)
Lemma grid_position_inj row_order row_count column_count i j :
  1 ≤ column_count →
  row_index_of row_order row_count column_count i
  = row_index_of row_order row_count column_count j →
  column_index_of column_count i = column_index_of column_count j →
  i = j.
Proof.
  intros Hc Hrow Hcol. unfold column_index_of in Hcol.
  assert (i / column_count = j / column_count) as Hdiv.
  { unfold row_index_of, floor_div in Hrow. destruct row_order; lia. }
  rewrite (Z.div_mod i column_count), (Z.div_mod j column_count) by lia.
  by rewrite Hdiv, Hcol.
Qed.

Lemma row_index_of_grid row_order row_count column_count j :
  1 ≤ column_count → 0 ≤ j < row_count * column_count →
  0 ≤ row_index_of row_order row_count column_count j < row_count ∧
  0 ≤ column_index_of column_count j < column_count.
Proof.
  intros Hc Hj. unfold row_index_of, column_index_of, floor_div.
  pose proof (Z.div_mod j column_count ltac:(lia)) as Hdiv.
  pose proof (Z.mod_pos_bound j column_count ltac:(lia)) as Hmod.
  assert (0 ≤ j / column_count < row_count) by nia.
  destruct row_order; lia.
Qed.

(** ** The background *)

Lemma list_mul_list_mul {A} (l : list A) a b :
  0 ≤ a → 0 ≤ b → list_mul (list_mul l a) b = list_mul l (a * b).
Proof.
  intros Ha Hb. unfold list_mul.
  rewrite Z2Nat.inj_mul, Nat.mul_comm by done.
  induction (Z.to_nat b) as [|n IH]; [done |].
  simpl. by rewrite replicate_add, join_app, IH.
Qed.

Lemma take_drop_join_replicate {A} (l : list A) (k n : nat) :
  (k < n)%nat →
  take (length l) (drop (k * length l) (mjoin (replicate n l))) = l.
Proof.
  revert n. induction k as [|k IH]; intros [|n] Hk; try lia;
    change (mjoin (replicate (S n) l)) with (l ++ mjoin (replicate n l)).
  - by rewrite Nat.mul_0_l, drop_0, take_app_length.
  - replace (S k * length l)%nat with (length l + k * length l)%nat by lia.
    rewrite drop_app_add. apply IH. lia.
Qed.

Lemma nth_pixel_list_mul n p :
  0 ≤ p < n → nth_pixel (list_mul background_pixel n) p = background_pixel.
Proof.
  intros Hp. unfold nth_pixel.
  rewrite slice_get_inside by (rewrite ?length_list_mul; simpl; lia).
  unfold list_mul.
  replace (Z.to_nat (p * 4 + 4) - Z.to_nat (p * 4))%nat
    with (length background_pixel) by (simpl; lia).
  replace (Z.to_nat (p * 4)) with (Z.to_nat p * length background_pixel)%nat
    by (simpl; lia).
  apply take_drop_join_replicate. lia.
Qed.

(** Every pixel of the fresh tilemap is the background pixel. *)
Lemma pixel_at_background tilemap_size x y :
  0 ≤ x < tilemap_size.1 → 0 ≤ y < tilemap_size.2 →
  pixel_at {| size := tilemap_size; pixels := background tilemap_size |} x y
  = background_pixel.
Proof.
  intros Hx Hy. unfold pixel_at, background. simpl.
  rewrite list_mul_list_mul by lia. apply nth_pixel_list_mul. nia.
Qed.

(** ** All tiles of the size of the cell *)

Section all_cell_sized.
Context (images : list Image) (row_order : RowOrder) (column_count cw ch : Z).
Context (Hcolumns : 1 ≤ column_count).
Context (Hmax : max_size_of images = (cw, ch)).
Context (Htiles : Forall (λ img, Image_wf img ∧ size img = (cw, ch)) images).

Let row_count := ceil_div (Z.of_nat (length images)) column_count.
Let W := cw * column_count.
Let r_of (i : Z) := row_index_of row_order row_count column_count i.
Let col_of (i : Z) := column_index_of column_count i.

Lemma cell_size_nonneg : 0 ≤ cw ∧ 0 ≤ ch.
Proof. pose proof (max_size_of_nonneg images) as Hn. by rewrite Hmax in Hn. Qed.

Lemma lookup_enumerate (i : nat) tile_img :
  images !! i = Some tile_img →
  enumerate images !! i = Some (Z.of_nat i, tile_img).
Proof.
  intros Hi. unfold enumerate, range. apply lookup_zip_Some. split; [| done].
  apply lookup_seqZ. apply lookup_lt_Some in Hi. lia.
Qed.

Lemma copy_tiles_upto_cell (k : nat) :
  (k ≤ length images)%nat →
  let after := copy_tiles_upto k images row_order row_count column_count in
  Z.of_nat (length after) = W * (ch * row_count) * 4 ∧
  (∀ (i : nat) tile_img x y,
     (i < k)%nat → images !! i = Some tile_img → 0 ≤ x < cw → 0 ≤ y < ch →
     nth_pixel after ((r_of (Z.of_nat i) * ch + y) * W
                      + (col_of (Z.of_nat i) * cw + x))
     = nth_pixel (pixels tile_img) (y * cw + x)) ∧
  (∀ X Y, 0 ≤ X < W → 0 ≤ Y < ch * row_count →
     (∀ i : nat, (i < k)%nat →
        ¬ in_cell cw ch (r_of (Z.of_nat i)) (col_of (Z.of_nat i)) X Y) →
     nth_pixel after (Y * W + X) = background_pixel).
Proof.
  destruct cell_size_nonneg as [Hcw Hch].
  assert (0 ≤ row_count) as Hrows.
  { pose proof (ceil_div_is_ceil (Z.of_nat (length images)) column_count Hcolumns)
      as Hceil. unfold is_ceil in Hceil. fold row_count in Hceil. nia. }
  unfold copy_tiles_upto, copy_tiles. rewrite Hmax.
  induction k as [|k IH]; intros Hk.
  - simpl. split_and!.
    + unfold background. rewrite !length_list_mul. simpl. unfold W. nia.
    + lia.
    + intros X Y HX HY _. unfold background, tilemap_size_of. cbn [fst snd].
      fold W. rewrite list_mul_list_mul by (unfold W; nia).
      apply nth_pixel_list_mul. nia.
  - destruct IH as (IHlen & IHin & IHout); [lia |].
    destruct (lookup_lt_is_Some_2 images k) as [tile_k Htile]; [lia |].
    rewrite (take_S_r _ _ _ (lookup_enumerate _ _ Htile)), foldl_app.
    cbn [foldl].
    set (before := foldl _ (background _) (take k (enumerate images))) in *.
    destruct (proj1 (Forall_forall _ _) Htiles tile_k) as [Hwf Hsize];
      [by eapply list_elem_of_lookup_2 |].
    pose proof (row_index_of_bounds row_order (Z.of_nat (length images))
                  column_count (Z.of_nat k) Hcolumns ltac:(lia)) as Hr.
    destruct (grid_position_bounds (Z.of_nat (length images)) column_count
                (Z.of_nat k) Hcolumns ltac:(lia)) as [_ Hcol].
    fold row_count in Hr.
    destruct (copy_tile_cell cw ch row_count column_count Hcw Hch Hrows Hcolumns
                row_order (Z.of_nat k) tile_k before Hwf Hsize Hr Hcol IHlen)
      as (Hlen & Hin & Hout).
    fold W (r_of (Z.of_nat k)) (col_of (Z.of_nat k)) in Hin, Hout.
    split_and!.
    + done.
    + intros i tile_img x y Hi Htile_i Hx Hy.
      destruct (decide (i = k)) as [-> | Hne].
      * assert (tile_img = tile_k) as -> by congruence. by apply Hin.
      * pose proof (row_index_of_bounds row_order (Z.of_nat (length images))
                      column_count (Z.of_nat i) Hcolumns ltac:(lia)) as Hri.
        destruct (grid_position_bounds (Z.of_nat (length images)) column_count
                    (Z.of_nat i) Hcolumns ltac:(lia)) as [_ Hci].
        fold row_count (r_of (Z.of_nat i)) in Hri.
        fold (column_index_of column_count (Z.of_nat i)) in Hci.
        fold (col_of (Z.of_nat i)) in Hci.
        rewrite Hout.
        -- apply IHin; [lia | done..].
        -- unfold W. nia.
        -- nia.
        -- intros Hcell.
           assert (in_cell cw ch (r_of (Z.of_nat i)) (col_of (Z.of_nat i))
                     (col_of (Z.of_nat i) * cw + x) (r_of (Z.of_nat i) * ch + y))
             as Hown by (unfold in_cell; lia).
           destruct (in_cell_inj cw ch _ _ _ _ _ _ Hown Hcell) as [Hreq Hceq].
           apply Hne, Nat2Z.inj.
           by eapply grid_position_inj.
    + intros X Y HX HY Hfree. rewrite Hout; [| done | done | apply Hfree; lia].
      apply IHout; [done | done |]. intros i Hi. apply Hfree. lia.
Qed.

End all_cell_sized.

(** X11: when every tile has the size of the cell, the tilemap is the
    grid of the tiles: the cell numbered [i] (column [i mod column_count],
    row from [floor(i / column_count)] as the row order says) holds tile
    [i], pixel for pixel, and the cells numbered from [n] on, which have no
    tile, hold the background pixel only. *)
Theorem compose_cell_sized_tiles images row_order column_count :
  Forall Image_wf images → 1 ≤ column_count →
  (∀ img, img ∈ images → size img = max_size_of images) →
  let row_count := ceil_div (Z.of_nat (length images)) column_count in
  let cell_size := max_size_of images in
  let out := compose images row_order row_count column_count in
  ∀ i x y,
    0 ≤ i < row_count * column_count →
    0 ≤ x < cell_size.1 → 0 ≤ y < cell_size.2 →
    pixel_at out
      (column_index_of column_count i * cell_size.1 + x)
      (row_index_of row_order row_count column_count i * cell_size.2 + y)
    = match images !! Z.to_nat i with
      | Some tile_img => pixel_at tile_img x y
      | None => background_pixel
      end.
Proof.
  intros Hwf Hc Hsizes row_count cell_size out i x y Hi Hx Hy.
  destruct (max_size_of images) as [cw ch] eqn:Hmax.
  subst cell_size. cbn [fst snd] in *.
  assert (Forall (λ img, Image_wf img ∧ size img = (cw, ch)) images) as Htiles.
  { apply Forall_forall. intros img Hin. split; [| by apply Hsizes].
    by apply (proj1 (Forall_forall _ _) Hwf). }
  destruct (copy_tiles_upto_cell images row_order column_count cw ch Hc Hmax
              Htiles (length images) ltac:(lia)) as (_ & Hin & Hout).
  fold row_count in Hin, Hout.
  destruct (row_index_of_grid row_order row_count column_count i Hc Hi)
    as [Hr Hcol].
  unfold pixel_at, out, compose. cbn [size pixels]. rewrite Hmax.
  unfold tilemap_size_of. cbn [fst snd].
  destruct (images !! Z.to_nat i) as [tile_img|] eqn:Htile.
  - pose proof (lookup_lt_Some _ _ _ Htile) as Hlt.
    specialize (Hin (Z.to_nat i) tile_img x y Hlt Htile Hx Hy).
    rewrite Z2Nat.id in Hin by lia. rewrite Hin.
    destruct (proj1 (Forall_forall _ _) Htiles tile_img) as [_ ->];
      [by eapply list_elem_of_lookup_2 | done].
  - apply lookup_ge_None in Htile. apply Hout; [nia | nia |].
    intros j Hj Hcell.
    assert (in_cell cw ch (row_index_of row_order row_count column_count i)
              (column_index_of column_count i)
              (column_index_of column_count i * cw + x)
              (row_index_of row_order row_count column_count i * ch + y))
      as Hown by (unfold in_cell; lia).
    destruct (in_cell_inj cw ch _ _ _ _ _ _ Hown Hcell) as [Hreq Hceq].
    pose proof (grid_position_inj _ _ _ _ _ Hc Hreq Hceq). lia.
Qed.

(** ** The operator, step by step *)

Section operator_facts.
Context (h : Host).

Lemma bind_Ok {A B} (m : M A) (f : A → M B) w b w' :
  (m ≫= f) w = (Ok b, w') ↔ ∃ a w1, m w = (Ok a, w1) ∧ f a w1 = (Ok b, w').
Proof.
  unfold mbind, M_bind. destruct (m w) as [[a|e] w1]; split.
  - intros Hf. by exists a, w1.
  - by intros (a' & w1' & [= <- <-] & Hf).
  - done.
  - by intros (a' & w1' & [=] & _).
Qed.

Lemma bind_run {A B} (m : M A) (f : A → M B) w a w1 :
  m w = (Ok a, w1) → (m ≫= f) w = f a w1.
Proof. unfold mbind, M_bind. by intros ->. Qed.

Lemma bind_raise {A B} (m : M A) (f : A → M B) w e w1 :
  m w = (Raise e, w1) → (m ≫= f) w = (Raise e, w1).
Proof. unfold mbind, M_bind. by intros ->. Qed.

Lemma property_read_Ok (getter : M Z) w v w1 :
  getter w = (Ok v, w1) → property_read getter w = (Ok v, w1).
Proof. unfold property_read. by intros ->. Qed.

Lemma property_read_Raise (getter : M Z) w e w1 :
  getter w = (Raise e, w1) → property_read getter w = (Ok 0, w1).
Proof. unfold property_read. by intros ->. Qed.

(** The row count that the operator reads, when the image sequences have
    been read: the getter divides by the column count, and the read gives
    0 when that is 0. *)
Lemma row_count_read_cached h' props w found w1 members :
  get_image_sequences_in_folder h (path props) w = (Ok found, w1) →
  found !! sequence props = Some members →
  property_read (row_count_get h' props) w1
  = (Ok (if column_count props =? 0 then 0
         else ceil_div (Z.of_nat (length members)) (column_count props)), w1).
Proof.
  intros Hget Hmembers.
  assert (image_count_get h' props w1 = (Ok (Z.of_nat (length members)), w1))
    as Hcount.
  { unfold image_count_get. rewrite (bind_run _ _ w1 found w1).
    - by rewrite Hmembers.
    - exact (get_image_sequences_memoized h h' _ _ _ _ Hget). }
  apply property_read_Ok in Hcount. unfold row_count_get.
  destruct (Z.eqb_spec (column_count props) 0) as [Hc | Hc].
  - apply property_read_Raise with (e := ZeroDivisionError).
    by rewrite (bind_run _ _ _ _ _ Hcount).
  - apply property_read_Ok. by rewrite (bind_run _ _ _ _ _ Hcount).
Qed.

Lemma images_add_Ok name img w id w' :
  images_add h name img w = (Ok id, w') →
  id = next_block (bpy_data_images w) ∧
  globals w' = globals w ∧ listed w' = listed w ∧
  next_block (bpy_data_images w') = S id ∧
  ∃ name',
    blocks (bpy_data_images w')
    = <[id := {| block_name := name'; block_image := img |}]>
        (blocks (bpy_data_images w)).
Proof. intros [= <- <-]. simpl. split_and!; try done. eauto. Qed.

Lemma images_read_Ok img w tile w' :
  images_read img w = (Ok tile, w') →
  w' = w ∧ ∃ block, blocks (bpy_data_images w) !! img = Some block ∧
                    block_image block = tile.
Proof.
  unfold images_read, mbind, M_bind, get_images. simpl.
  destruct (blocks (bpy_data_images w) !! img) as [block|]; [| done].
  intros [= <- <-]. eauto.
Qed.

Lemma images_remove_Ok img w w' :
  images_remove img w = (Ok (), w') →
  globals w' = globals w ∧ listed w' = listed w ∧
  next_block (bpy_data_images w') = next_block (bpy_data_images w) ∧
  is_Some (blocks (bpy_data_images w) !! img) ∧
  blocks (bpy_data_images w') = delete img (blocks (bpy_data_images w)).
Proof.
  unfold images_remove, mbind, M_bind, get_images. simpl.
  destruct (blocks (bpy_data_images w) !! img) as [block|] eqn:Hb; [| done].
  intros [= <-]. simpl. by split_and!.
Qed.

Lemma images_write_Ok img pixels' w w' :
  images_write h img pixels' w = (Ok (), w') →
  globals w' = globals w ∧ listed w' = listed w ∧
  next_block (bpy_data_images w') = next_block (bpy_data_images w) ∧
  ∃ block,
    blocks (bpy_data_images w) !! img = Some block ∧
    blocks (bpy_data_images w')
    = <[img := {| block_name := block_name block;
                  block_image := {| size := size (block_image block);
                                    pixels := store_pixels h pixels' |} |}]>
        (blocks (bpy_data_images w)).
Proof.
  unfold images_write, mbind, M_bind, get_images. simpl.
  destruct (blocks (bpy_data_images w) !! img) as [block|] eqn:Hb; [| done].
  intros [= <-]. simpl. split_and!; try done. eauto.
Qed.

(** The loop that loads the tiles takes the next handles in order, leaves
    the other data blocks alone and keeps the largest size. *)
Lemma load_tiles_Ok folder_path files images0 max_size0 w images max_size w' :
  load_tiles h folder_path files images0 max_size0 w
  = (Ok (images, max_size), w') →
  let first := next_block (bpy_data_images w) in
  ∃ tiles,
    Forall2 (λ file tile, load_image h (join h folder_path file) = Ok tile)
            files tiles ∧
    images = images0 ++ seq first (length files) ∧
    max_size = foldl grow_max_size max_size0 tiles ∧
    globals w' = globals w ∧ listed w' = listed w ∧
    next_block (bpy_data_images w') = (first + length files)%nat ∧
    (∀ img, (img < first ∨ first + length files ≤ img)%nat →
       blocks (bpy_data_images w') !! img = blocks (bpy_data_images w) !! img) ∧
    (∀ i tile, tiles !! i = Some tile →
       ∃ name, blocks (bpy_data_images w') !! (first + i)%nat
               = Some {| block_name := name; block_image := tile |}).
Proof.
  revert images0 max_size0 w.
  induction files as [|file files IH]; intros images0 max_size0 w;
    cbn [load_tiles].
  - intros [= <- <- <-]. exists []. simpl.
    split_and!; try done. by rewrite app_nil_r.
  - intros (img & w1 & Hload & (tile & w2 & Hread & Hrest)%bind_Ok)%bind_Ok.
    unfold images_load in Hload.
    apply bind_Ok in Hload as (tile0 & w0 & Hhost & Hadd).
    unfold lift in Hhost. injection Hhost as Hhost <-.
    apply images_add_Ok in Hadd as (-> & Hg1 & Hl1 & Hn1 & name & Hb1).
    apply images_read_Ok in Hread as (-> & block & Hblock & <-).
    rewrite Hb1, lookup_insert_eq in Hblock. injection Hblock as <-. simpl in *.
    apply IH in Hrest
      as (tiles & Hloads & Himages & -> & Hg & Hl & Hn & Hold & Hnew).
    rewrite Hn1 in Himages, Hn, Hold, Hnew. subst images.
    set (first := next_block (bpy_data_images w)) in *.
    exists (tile0 :: tiles). split_and!.
    + by constructor.
    + rewrite <- app_assoc. done.
    + done.
    + congruence.
    + congruence.
    + lia.
    + intros id Hid. simpl in Hid. rewrite Hold by lia. rewrite Hb1.
      apply lookup_insert_ne. lia.
    + intros [|i] tile Htile; simpl in Htile.
      * injection Htile as <-. rewrite Nat.add_0_r, Hold by lia.
        rewrite Hb1, lookup_insert_eq. eauto.
      * replace (first + S i)%nat with (S first + i)%nat by lia. by apply Hnew.
Qed.

(** The loop that copies the tiles reads every tile and, unless there is
    none, divides by a column count that is not 0; it changes nothing but
    the pixel list. *)
Lemma copy_images_Ok tilemap_size row_order row_count column_count
    images tilemap_pixels w out w' :
  copy_images tilemap_size row_order row_count column_count images
              tilemap_pixels w = (Ok out, w') →
  w' = w ∧ (images = [] ∨ column_count ≠ 0) ∧
  ∃ tiles,
    Forall2 (λ img tile, ∃ block, blocks (bpy_data_images w) !! img = Some block
                                  ∧ block_image block = tile)
            (images.*2) tiles ∧
    out = foldl (copy_tile tilemap_size row_order row_count column_count)
                tilemap_pixels (zip (images.*1) tiles).
Proof.
  revert tilemap_pixels.
  induction images as [|[i img] images IH]; intros tilemap_pixels;
    cbn [copy_images].
  - intros [= <- <-]. split_and!; [done | by left |]. exists []. by split.
  - intros (tile & w1 & (-> & Hblock)%images_read_Ok & Hrest)%bind_Ok.
    destruct (Z.eqb_spec column_count 0) as [| Hc]; [done |].
    apply IH in Hrest as (-> & _ & tiles & Hread & ->).
    split_and!; [done | by right |]. exists (tile :: tiles).
    split; [by constructor | done].
Qed.

Lemma enumerate_fst {A} (l : list A) :
  (enumerate l).*1 = range (Z.of_nat (length l)).
Proof.
  unfold enumerate, range. apply fst_zip. by rewrite length_seqZ, Nat2Z.id.
Qed.

Lemma enumerate_snd {A} (l : list A) : (enumerate l).*2 = l.
Proof.
  unfold enumerate, range. apply snd_zip. by rewrite length_seqZ, Nat2Z.id.
Qed.

(** A data block that is found by its name has that name, and a name that
    is not among the keys is the name of no data block. *)
Lemma images_find_Some name imgs existing :
  images_find name imgs = Some existing →
  ∃ block, blocks imgs !! existing = Some block ∧ block_name block = name.
Proof.
  unfold images_find. intros Hfind.
  apply fmap_Some in Hfind as ([i [img block]] & Hfind & ->).
  apply list_find_Some in Hfind as (Hlookup & Hname & _).
  exists block. split; [| done].
  by apply elem_of_map_to_list, (list_elem_of_lookup_2 _ i).
Qed.

Lemma images_keys_not_elem_of name imgs img block :
  name ∉ images_keys imgs → blocks imgs !! img = Some block →
  block_name block ≠ name.
Proof.
  unfold images_keys. intros Hnot Hblock Hname. apply Hnot.
  apply elem_of_list_to_set, list_elem_of_fmap. exists block.
  split; [done |]. apply list_elem_of_fmap. exists (img, block).
  split; [done |]. by apply elem_of_map_to_list.
Qed.

Lemma remove_tiles_Ok images w w' :
  remove_tiles images w = (Ok (), w') →
  globals w' = globals w ∧ listed w' = listed w ∧
  next_block (bpy_data_images w') = next_block (bpy_data_images w) ∧
  ∀ img, blocks (bpy_data_images w') !! img
         = if decide (img ∈ images) then None
           else blocks (bpy_data_images w) !! img.
Proof.
  revert w. induction images as [|img images IH]; intros w;
    cbn [remove_tiles].
  - intros [= <-]. by split_and!.
  - intros ([] & w1 & (Hg1 & Hl1 & Hn1 & _ & Hb1)%images_remove_Ok
            & (Hg & Hl & Hn & Hb)%IH)%bind_Ok.
    split_and!; try congruence. intros id. rewrite Hb, Hb1.
    destruct (decide (id ∈ images)) as [Hin | Hnin].
    + by rewrite decide_True by (by right).
    + destruct (decide (id = img)) as [-> | Hne].
      * rewrite decide_True by left. apply lookup_delete_eq.
      * rewrite decide_False by (by intros [-> | ?]%elem_of_cons).
        by apply lookup_delete_ne.
Qed.

Lemma length_insert_by {A} (key : A → str) x l :
  length (insert_by key x l) = S (length l).
Proof.
  induction l as [|y l IH]; simpl; [done |].
  destruct (str_leb (key y) (key x)); simpl; by rewrite ?IH.
Qed.

Lemma insert_by_Permutation {A} (key : A → str) x l :
  insert_by key x l ≡ₚ x :: l.
Proof.
  induction l as [|y l IH]; simpl; [done |].
  destruct (str_leb (key y) (key x)); [| done].
  rewrite IH. apply perm_swap.
Qed.

(** Sorting keeps the members. *)
Lemma sorted_Permutation {A} (key : A → str) l : sorted key l ≡ₚ l.
Proof.
  unfold sorted.
  assert (∀ acc, foldl (λ acc x, insert_by key x acc) acc l ≡ₚ acc ++ l) as Hgen.
  { induction l as [|x l IH]; intros acc; simpl; [by rewrite app_nil_r |].
    rewrite IH, insert_by_Permutation. apply Permutation_middle. }
  apply Hgen.
Qed.

Lemma length_enumerate {A} (l : list A) : length (enumerate l) = length l.
Proof.
  unfold enumerate, range. rewrite length_zip, length_seqZ. lia.
Qed.

Lemma copy_tiles_upto_all images row_order row_count column_count :
  copy_tiles_upto (length images) images row_order row_count column_count
  = copy_tiles (tilemap_size_of (max_size_of images) column_count row_count)
               row_order row_count column_count (enumerate images).
Proof.
  unfold copy_tiles_upto. by rewrite take_ge by (by rewrite length_enumerate).
Qed.

(** When the operator returns, it has loaded the files of the selected
    sequence in the order of their names, made one new data block, assigned
    it the pixel list of [compose] of those tiles with the row count that
    it read, and removed the data blocks of the tiles again; of the other
    data blocks at most one is gone, which had the name of the output. *)
Lemma execute_run props w tilemap_img w' :
  images_wf (bpy_data_images w) →
  execute h props w = (Ok tilemap_img, w') →
  ∃ found members tiles name base,
    (get_image_sequences_in_folder h (path props) w).1 = Ok found ∧
    found !! sequence props = Some members ∧
    (members = [] ∨ column_count props ≠ 0) ∧
    Forall2 (λ file tile, load_image h (join h (path props) file) = Ok tile)
            (snd <$> sorted snd members) tiles ∧
    ((base = blocks (bpy_data_images w) ∧
      (overwrite_existing props = false ∨
       ∀ img block, blocks (bpy_data_images w) !! img = Some block →
                    block_name block ≠ output_name props)) ∨
     (overwrite_existing props = true ∧
      ∃ existing block,
        blocks (bpy_data_images w) !! existing = Some block ∧
        block_name block = output_name props ∧
        base = delete existing (blocks (bpy_data_images w)))) ∧
    blocks (bpy_data_images w) !! tilemap_img = None ∧
    let row_count :=
      if column_count props =? 0 then 0
      else ceil_div (Z.of_nat (length tiles)) (column_count props) in
    let tilemap :=
      compose tiles (row_order props) row_count (column_count props) in
    blocks (bpy_data_images w')
    = <[tilemap_img :=
          {| block_name := name;
             block_image := {| size := size tilemap;
                               pixels := store_pixels h (pixels tilemap) |} |}]>
        base.
Proof.
  intros Hwf. unfold execute.
  intros (found & w1 & Hget & Hrun)%bind_Ok.
  pose proof (get_image_sequences_images _ _ _ _ _ Hget) as Himgs1.
  apply bind_Ok in Hrun as (members0 & w1' & Hmembers & Hrun).
  destruct (found !! sequence props) as [members|] eqn:Hlookup; [| done].
  injection Hmembers as <- <-.
  apply bind_Ok in Hrun as (row_count & w1' & Hrows & Hrun).
  rewrite (row_count_read_cached h props w found w1 members Hget Hlookup)
    in Hrows.
  injection Hrows as <- <-.
  apply bind_Ok in Hrun as ([images max_size] & w2 & Hload & Hrun).
  apply load_tiles_Ok in Hload
    as (tiles & Hloads & -> & -> & _ & _ & Hn2 & Hold2 & Hnew2).
  rewrite Himgs1 in Hn2, Hold2, Hnew2, Hrun. cbn [app] in Hrun.
  set (first := next_block (bpy_data_images w)) in *.
  set (files := snd <$> sorted snd members) in *.
  pose proof (Forall2_length _ _ _ Hloads) as Hlen.
  fold (max_size_of tiles) in Hrun.
  assert (length files = length members) as Hfiles.
  { unfold files. by rewrite length_fmap, sorted_Permutation. }
  assert (∀ img, (first ≤ img)%nat → blocks (bpy_data_images w) !! img = None)
    as Hfresh.
  { intros img Himg. apply eq_None_not_Some. intros Hsome%Hwf.
    unfold first in *. lia. }
  apply bind_Ok in Hrun as (imgs & w2' & [= <- <-] & Hrun).
  apply bind_Ok in Hrun as ([] & w3 & Hoverwrite & Hrun).
  (* the data blocks after the existing output image has been removed *)
  assert (next_block (bpy_data_images w3) = (first + length files)%nat ∧
          (((∀ img, blocks (bpy_data_images w3) !! img
                    = blocks (bpy_data_images w2) !! img) ∧
            (overwrite_existing props = false ∨
             ∀ img block, blocks (bpy_data_images w2) !! img = Some block →
                          block_name block ≠ output_name props)) ∨
           (overwrite_existing props = true ∧
            ∃ existing block,
              blocks (bpy_data_images w2) !! existing = Some block ∧
              block_name block = output_name props ∧
              ∀ img, blocks (bpy_data_images w3) !! img
                     = delete existing (blocks (bpy_data_images w2)) !! img)))
    as [Hn3 Hb3].
  { destruct (overwrite_existing props) eqn:Hov; cbn [andb] in Hoverwrite.
    - case_bool_decide as Hkeys.
      + destruct (images_find _ _) as [existing|] eqn:Hfind; [| done].
        apply images_find_Some in Hfind as (block & Hblock & Hname).
        apply images_remove_Ok in Hoverwrite as (_ & _ & Hn & _ & Hb).
        split; [congruence |]. right. split; [done |].
        exists existing, block. split_and!; try done.
        intros img. by rewrite Hb.
      + injection Hoverwrite as <-. split; [done |]. left. split; [done |].
        right. intros img block Hblock.
        by eapply images_keys_not_elem_of.
    - injection Hoverwrite as <-. split; [done |]. left. split; [done |].
      by left. }
  clear Hoverwrite.
  apply bind_Ok in Hrun as (tm & w4 & Hnew & Hrun).
  unfold images_new in Hnew.
  apply images_add_Ok in Hnew as (-> & _ & _ & Hn4 & name & Hb4).
  rewrite Hn3 in Hn4, Hb4, Hrun. set (tm := (first + length files)%nat) in *.
  apply bind_Ok in Hrun as (out & w4' & Hcopy & Hrun).
  apply copy_images_Ok in Hcopy as (-> & Hdiv & tiles' & Hread & ->).
  rewrite enumerate_snd in Hread.
  rewrite enumerate_fst, length_seq in Hrun.
  apply bind_Ok in Hrun as ([] & w5 & Hwrite & Hrun).
  apply images_write_Ok in Hwrite as (_ & _ & Hn5 & block & Hblock & Hb5).
  rewrite Hb4, lookup_insert_eq in Hblock. injection Hblock as <-.
  simpl in Hb5. rewrite Hb4, insert_insert_eq in Hb5.
  apply bind_Ok in Hrun as ([] & w6 & (_ & _ & _ & Hb6)%remove_tiles_Ok & Hret).
  injection Hret as <- <-. simpl in Hb6.
  (* the tiles that are read are the tiles that were loaded *)
  assert (∀ i, (i < length files)%nat →
               blocks (bpy_data_images w3) !! (first + i)%nat
               = blocks (bpy_data_images w2) !! (first + i)%nat) as Hkept.
  { intros i Hi.
    destruct Hb3 as [[Hb3 _] | (_ & existing & old & _ & _ & Hb3)]; [done |].
    rewrite Hb3. apply lookup_delete_ne. intros ->.
    apply Forall2_lookup_l with (i := i) (x := (first + i)%nat) in Hread
      as (tile' & _ & block & Hblock & _); [| by apply lookup_seq_lt].
    rewrite Hb4, lookup_insert_ne, Hb3, lookup_delete_eq in Hblock by lia. done. }
  assert (tiles' = tiles) as ->.
  { apply list_eq_Forall2, Forall2_same_length_lookup.
    pose proof (Forall2_length _ _ _ Hread) as Hlen'. rewrite length_seq in Hlen'.
    split; [congruence |]. intros i tile' tile Htile' Htile.
    destruct (Hnew2 i tile Htile) as [name_i Hblock_i].
    pose proof (lookup_lt_Some _ _ _ Htile) as Hi. rewrite <- Hlen in Hi.
    destruct (Forall2_lookup_lr _ _ _ i (first + i)%nat tile' Hread
                (lookup_seq_lt _ _ _ Hi) Htile') as (block & Hblock & <-).
    rewrite Hb4, lookup_insert_ne, Hkept, Hblock_i in Hblock by lia.
    by injection Hblock as <-. }
  (* the data blocks at the end *)
  set (rc := if column_count props =? 0 then 0
             else ceil_div (Z.of_nat (length tiles)) (column_count props)).
  assert (∀ base,
            (∀ img, (first ≤ img)%nat → base !! img = None) →
            (∀ img, ¬ (first ≤ img)%nat →
                    blocks (bpy_data_images w3) !! img = base !! img) →
            blocks (bpy_data_images w6)
            = <[tm := {| block_name := name;
                         block_image :=
                           {| size := size (compose tiles (row_order props) rc
                                                    (column_count props));
                              pixels :=
                                store_pixels h
                                  (pixels (compose tiles (row_order props) rc
                                                   (column_count props))) |} |}]>
                base) as Hend.
  { intros base Hbase_fresh Hbase_old. apply map_eq. intros img.
    rewrite Hb6, Hb5. destruct (decide (img = tm)) as [-> | Hne].
    - rewrite decide_False by (rewrite elem_of_seq; unfold tm; lia).
      rewrite !lookup_insert_eq. unfold rc, compose. cbn [size pixels].
      rewrite copy_tiles_upto_all. unfold copy_tiles, enumerate.
      rewrite <- Hfiles, !Hlen. done.
    - rewrite !lookup_insert_ne by done. case_decide as Hin.
      + symmetry. apply Hbase_fresh. apply elem_of_seq in Hin. lia.
      + destruct (decide (first ≤ img)%nat) as [Hge | Hlt].
        * rewrite Hbase_fresh by done. rewrite elem_of_seq in Hin.
          destruct Hb3 as [[Hb3 _] | (_ & existing & old & _ & _ & Hb3)];
            rewrite Hb3.
          -- rewrite Hold2 by (unfold tm in *; lia). by apply Hfresh.
          -- destruct (decide (existing = img)) as [-> | Hne'];
               [apply lookup_delete_eq |].
             rewrite lookup_delete_ne by done.
             rewrite Hold2 by (unfold tm in *; lia). by apply Hfresh.
        * by apply Hbase_old. }
  assert (members = [] ∨ column_count props ≠ 0) as Hdiv'.
  { destruct Hdiv as [Hnil | Hc]; [left | by right].
    apply (f_equal length) in Hnil.
    rewrite length_enumerate, length_seq, Hfiles in Hnil.
    by destruct members. }
  destruct Hb3 as [[Hb3 Hnames] | (Hov & existing & old & Hold & Hname & Hb3)].
  - exists found, members, tiles, name, (blocks (bpy_data_images w)).
    rewrite Hget. split_and!; try done.
    + left. split; [done |]. destruct Hnames as [Hov | Hnames]; [by left |].
      right. intros img block Hblock. apply (Hnames img).
      rewrite Hold2; [done |]. left. apply Hwf. by rewrite Hblock.
    + apply Hfresh; unfold tm; lia.
    + apply Hend; [done |]. intros img Himg. rewrite Hb3. apply Hold2. lia.
  - assert (existing < first)%nat as Hexisting.
    { destruct (decide (existing < first)%nat) as [| Hge]; [done |].
      destruct (decide (existing < first + length files)%nat) as [Hmid | Hhigh].
      - specialize (Hkept (existing - first)%nat ltac:(lia)).
        replace (first + (existing - first))%nat with existing in Hkept by lia.
        rewrite Hb3, lookup_delete_eq, Hold in Hkept. done.
      - rewrite Hold2, Hfresh in Hold by lia. done. }
    rewrite Hold2 in Hold by lia.
    exists found, members, tiles, name,
           (delete existing (blocks (bpy_data_images w))).
    rewrite Hget. split_and!; try done.
    + right. split; [done |]. by exists existing, old.
    + apply Hfresh; unfold tm; lia.
    + apply Hend.
      * intros img Himg. destruct (decide (existing = img)) as [-> | Hne];
          [apply lookup_delete_eq |].
        rewrite lookup_delete_ne by done. by apply Hfresh.
      * intros img Himg. rewrite Hb3.
        destruct (decide (existing = img)) as [-> | Hne];
          [by rewrite !lookup_delete_eq |].
        rewrite !lookup_delete_ne by done. apply Hold2. lia.
Qed.

(** X12: when the operator returns from a world that satisfies the
    invariant, the selected sequence exists and has members, and the column
    count is not 0.  The operator has loaded the files of the sequence in
    the order of their names, made exactly one new data block, which has
    the size of the tilemap composed of those tiles with
    [ceil(n / column_count)] rows and holds what the host stores of its
    pixel list, and removed the data blocks of the tiles again.  Of the
    data blocks from before, none is changed, and one is gone only when
    [overwrite_existing] is set: a data block that had the output name. *)
Theorem execute_Ok props w tilemap_img w' :
  world_inv w →
  execute h props w = (Ok tilemap_img, w') →
  ∃ found members tiles name base,
    (get_image_sequences_in_folder h (path props) w).1 = Ok found ∧
    found !! sequence props = Some members ∧
    members ≠ [] ∧ column_count props ≠ 0 ∧
    Forall2 (λ file tile, load_image h (join h (path props) file) = Ok tile)
            (snd <$> sorted snd members) tiles ∧
    ((base = blocks (bpy_data_images w) ∧
      (overwrite_existing props = false ∨
       ∀ img block, blocks (bpy_data_images w) !! img = Some block →
                    block_name block ≠ output_name props)) ∨
     (overwrite_existing props = true ∧
      ∃ existing block,
        blocks (bpy_data_images w) !! existing = Some block ∧
        block_name block = output_name props ∧
        base = delete existing (blocks (bpy_data_images w)))) ∧
    blocks (bpy_data_images w) !! tilemap_img = None ∧
    let tilemap :=
      compose tiles (row_order props)
              (ceil_div (Z.of_nat (length tiles)) (column_count props))
              (column_count props) in
    blocks (bpy_data_images w')
    = <[tilemap_img :=
          {| block_name := name;
             block_image := {| size := size tilemap;
                               pixels := store_pixels h (pixels tilemap) |} |}]>
        base.
Proof.
  intros [Hgroups Hwf] Hrun.
  destruct (execute_run props w tilemap_img w' Hwf Hrun)
    as (found & members & tiles & name & base & Hget & Hmembers & Hdiv
        & Hloads & Hbase & Hnew & Hblocks).
  assert (members ≠ []) as Hne.
  { destruct (get_image_sequences_in_folder h (path props) w) as [r w1] eqn:Hg.
    cbn [fst] in Hget. subst r.
    destruct (get_image_sequences_nonempty _ _ _ _ _ Hgroups Hg) as [_ Hfound].
    by apply (Hfound found eq_refl (sequence props)). }
  assert (column_count props ≠ 0) as Hc by (by destruct Hdiv).
  exists found, members, tiles, name, base. split_and!; try done.
  cbv zeta in Hblocks. by destruct (Z.eqb_spec (column_count props) 0).
Qed.

(** C4: when the operator returns, with a column count of at least 1 and
    a host whose images have as many components as their size says, the
    loaded tiles are the [n >= 1] files of the selected sequence, and the
    data block of the tilemap is [column_count] times the largest tile
    width wide and [ceil(n / column_count)] times the largest tile height
    high. *)
Theorem execute_tilemap_size props w tilemap_img w' :
  world_inv w →
  (∀ filepath img, load_image h filepath = Ok img → Image_wf img) →
  1 ≤ column_count props →
  execute h props w = (Ok tilemap_img, w') →
  ∃ found members tiles block cell_width cell_height row_count,
    (get_image_sequences_in_folder h (path props) w).1 = Ok found ∧
    found !! sequence props = Some members ∧
    Forall2 (λ file tile, load_image h (join h (path props) file) = Ok tile)
            (snd <$> sorted snd members) tiles ∧
    tiles ≠ [] ∧
    is_max cell_width ((λ img, (size img).1) <$> tiles) ∧
    is_max cell_height ((λ img, (size img).2) <$> tiles) ∧
    is_ceil row_count (Z.of_nat (length tiles)) (column_count props) ∧
    blocks (bpy_data_images w') !! tilemap_img = Some block ∧
    size (block_image block)
    = (cell_width * column_count props, cell_height * row_count).
Proof.
  intros [Hgroups Hwf] Hhost Hc Hrun.
  destruct (execute_run props w tilemap_img w' Hwf Hrun)
    as (found & members & tiles & name & base & Hget & Hmembers & _
        & Hloads & _ & _ & Hblocks).
  assert (members ≠ []) as Hne.
  { destruct (get_image_sequences_in_folder h (path props) w) as [r w1] eqn:Hg.
    cbn [fst] in Hget. subst r.
    destruct (get_image_sequences_nonempty _ _ _ _ _ Hgroups Hg) as [_ Hfound].
    by apply (Hfound found eq_refl (sequence props)). }
  assert (tiles ≠ []) as Htiles.
  { intros ->. apply Forall2_length in Hloads.
    rewrite length_fmap, sorted_Permutation in Hloads. by destruct members. }
  assert (Forall Image_wf tiles) as Hwf_tiles.
  { apply Forall_forall. intros tile [i Htile]%list_elem_of_lookup_1.
    destruct (Forall2_lookup_r _ _ _ _ _ Hloads Htile) as (file & _ & Hload).
    by apply (Hhost _ _ Hload). }
  destruct (compose_size tiles (row_order props) (column_count props)
              Htiles Hwf_tiles Hc)
    as (cell_width & cell_height & row_count & Hw & Hh & Hceil & Hsize).
  cbv zeta in Hblocks.
  destruct (Z.eqb_spec (column_count props) 0) as [| _]; [lia |].
  eexists found, members, tiles, _, cell_width, cell_height, row_count.
  split_and!; try done.
  - rewrite Hblocks. apply lookup_insert_eq.
  - exact Hsize.
Qed.

(** ** The invariant of the world *)

Lemma preserves_bind {A B} P (m : M A) (f : A → M B) :
  preserves P m → (∀ a, preserves P (f a)) → preserves P (m ≫= f).
Proof.
  intros Hm Hf w r w' Hw. unfold mbind, M_bind.
  destruct (m w) as [[a|e] w1] eqn:Hrun.
  - apply (Hf a). by eapply Hm.
  - intros [= <- <-]. by eapply Hm.
Qed.

Lemma preserves_ret {A} P (a : A) : preserves P (mret a).
Proof. by intros w r w' Hw [= <- <-]. Qed.

Lemma preserves_raise {A} P e : preserves P (raise (A := A) e).
Proof. by intros w r w' Hw [= <- <-]. Qed.

Lemma preserves_lift {A} P (r : result A) : preserves P (lift r).
Proof. by intros w r' w' Hw [= <- <-]. Qed.

Lemma preserves_get_images P : preserves P get_images.
Proof. by intros w r w' Hw [= <- <-]. Qed.

Lemma preserves_get_image_sequences path :
  preserves world_inv (get_image_sequences_in_folder h path).
Proof.
  intros w r w' [Hgroups Himages] Hget. split.
  - by destruct (get_image_sequences_nonempty _ _ _ _ _ Hgroups Hget).
  - by rewrite (get_image_sequences_images _ _ _ _ _ Hget).
Qed.

Lemma preserves_set_images imgs :
  images_wf imgs → preserves world_inv (set_images imgs).
Proof. intros Himgs w r w' [Hgroups _] [= <- <-]. by split. Qed.

Lemma preserves_images_add name img :
  preserves world_inv (images_add h name img).
Proof.
  intros w r w' [Hgroups Himages] [= <- <-]. split; [done |].
  intros id. simpl. destruct (decide (id = next_block (bpy_data_images w)))
    as [-> | Hne]; [lia |].
  rewrite lookup_insert_ne by done. intros Hid%Himages. lia.
Qed.

Lemma preserves_images_read img : preserves world_inv (images_read img).
Proof.
  unfold images_read. apply preserves_bind; [apply preserves_get_images |].
  intros imgs. destruct (blocks imgs !! img);
    [apply preserves_ret | apply preserves_raise].
Qed.

Lemma preserves_images_remove img : preserves world_inv (images_remove img).
Proof.
  intros w r w' [Hgroups Himages]. unfold images_remove, mbind, M_bind. simpl.
  destruct (blocks (bpy_data_images w) !! img) as [block|] eqn:Hblock;
    intros [= <- <-]; split; try done.
  intros id. simpl. destruct (decide (id = img)) as [-> | Hne].
  - rewrite lookup_delete_eq. by intros [? ?].
  - rewrite lookup_delete_ne by done. apply Himages.
Qed.

Lemma preserves_images_write img pixels' :
  preserves world_inv (images_write h img pixels').
Proof.
  intros w r w' [Hgroups Himages]. unfold images_write, mbind, M_bind. simpl.
  destruct (blocks (bpy_data_images w) !! img) as [block|] eqn:Hblock;
    intros [= <- <-]; split; try done.
  intros id. simpl. destruct (decide (id = img)) as [-> | Hne].
  - intros _. apply Himages. by rewrite Hblock.
  - rewrite lookup_insert_ne by done. apply Himages.
Qed.

Lemma preserves_load_tiles folder_path files images max_size :
  preserves world_inv (load_tiles h folder_path files images max_size).
Proof.
  revert images max_size.
  induction files as [|file files IH]; intros images max_size; cbn [load_tiles].
  - apply preserves_ret.
  - apply preserves_bind.
    + unfold images_load. apply preserves_bind; [apply preserves_lift |].
      intros img. apply preserves_images_add.
    + intros img. apply preserves_bind; [apply preserves_images_read |].
      intros tile. apply IH.
Qed.

Lemma preserves_copy_images tilemap_size row_order row_count column_count
    images tilemap_pixels :
  preserves world_inv (copy_images tilemap_size row_order row_count
                                   column_count images tilemap_pixels).
Proof.
  revert tilemap_pixels.
  induction images as [|[i img] images IH]; intros tilemap_pixels;
    cbn [copy_images].
  - apply preserves_ret.
  - apply preserves_bind; [apply preserves_images_read |]. intros tile.
    destruct (column_count =? 0); [apply preserves_raise | apply IH].
Qed.

Lemma preserves_property_read P getter :
  preserves P getter → preserves P (property_read getter).
Proof.
  intros Hgetter w r w' Hw. unfold property_read.
  destruct (getter w) as [[v|e] w1] eqn:Hrun; intros [= <- <-];
    by eapply Hgetter.
Qed.

Lemma preserves_remove_tiles images :
  preserves world_inv (remove_tiles images).
Proof.
  induction images as [|img images IH]; cbn [remove_tiles].
  - apply preserves_ret.
  - apply preserves_bind; [apply preserves_images_remove |]. intros _. apply IH.
Qed.

Lemma preserves_row_count_get props :
  preserves world_inv (row_count_get h props).
Proof.
  unfold row_count_get, image_count_get. apply preserves_bind.
  - apply preserves_property_read.
    apply preserves_bind; [apply preserves_get_image_sequences |].
    intros found. apply preserves_ret.
  - intros count. destruct (column_count props =? 0);
      [apply preserves_raise | apply preserves_ret].
Qed.

Lemma preserves_execute props : preserves world_inv (execute h props).
Proof.
  unfold execute.
  apply preserves_bind; [apply preserves_get_image_sequences |]. intros found.
  apply preserves_bind.
  { destruct (found !! sequence props);
      [apply preserves_ret | apply preserves_raise]. }
  intros members.
  apply preserves_bind;
    [apply preserves_property_read, preserves_row_count_get |].
  intros row_count.
  apply preserves_bind; [apply preserves_load_tiles |]. intros [images max_size].
  apply preserves_bind; [apply preserves_get_images |]. intros imgs.
  apply preserves_bind.
  { destruct (_ && _); [| apply preserves_ret].
    destruct (images_find _ _);
      [apply preserves_images_remove | apply preserves_raise]. }
  intros _.
  apply preserves_bind; [apply preserves_images_add |]. intros tilemap_img.
  apply preserves_bind; [apply preserves_copy_images |]. intros tilemap_pixels.
  apply preserves_bind; [apply preserves_images_write |]. intros _.
  apply preserves_bind; [apply preserves_remove_tiles |]. intros _.
  apply preserves_ret.
Qed.

End operator_facts.

(** The invariant holds when the add-on has been registered and after
    every call. *)
Lemma world_inv_fresh : world_inv Sample.fresh_world.
Proof.
  split; [apply initial_globals_nonempty |].
  intros img [? Hsome]. simpl in Hsome. by rewrite lookup_empty in Hsome.
Qed.

(** X13: every call of an entry point of the add-on (reading the image
    sequences, the row count getter, marking the cache dirty, the operator),
    however it ends, keeps the invariant of the world: the cached image
    sequences hold no empty group, and every data block in use has a
    handle below the next one. *)
Theorem world_inv_step w w' : world_inv w → step w w' → world_inv w'.
Proof.
  intros Hw Hstep. revert Hw.
  destruct Hstep as [h path w r w' Hrun | h props w r w' Hrun | w r w' Hrun
                    | h props w r w' Hrun]; intros Hw.
  - exact (preserves_get_image_sequences h path _ _ _ Hw Hrun).
  - exact (preserves_row_count_get h props _ _ _ Hw Hrun).
  - destruct Hw as [Hgroups Himages]. injection Hrun as _ <-. by split.
  - exact (preserves_execute h props _ _ _ Hw Hrun).
Qed.

(** ** A run of the operator *)

(** Two frames of one pixel each, listed out of order, in one row of two
    columns: the operator returns the handle of a new data block named as
    asked, 2x1, with the pixel of [frame_001.png] to the left of that of
    [frame_002.png], each component at its 8-bit level (0.25 at 64 and 0.5
    at 128 of 255), and has removed the two tile data blocks again. *)
Lemma execute_two_frames :
  let h := Sample.host (lit "/render")
             [(lit "frame_002.png", Sample.solid 1 1 0.5%float);
              (lit "frame_001.png", Sample.solid 1 1 0.25%float)] in
  let props := {| path := lit "/render"; sequence := lit "frame_#.png";
                  column_count := 2; row_order := top_to_bottom;
                  output_name := lit "Texture Atlas";
                  overwrite_existing := false |} in
  let '(r, w) := execute h props Sample.fresh_world in
  r = Ok 2%nat ∧
  map_to_list (blocks (bpy_data_images w))
  = [(2%nat, {| block_name := lit "Texture Atlas";
                block_image :=
                  {| size := (2, 1);
                     pixels := [64 / 255; 64 / 255; 64 / 255; 64 / 255;
                                128 / 255; 128 / 255; 128 / 255;
                                128 / 255]%float |} |})] ∧
  cached_image_sequences_path (globals w) = Some (lit "/render") ∧
  listed w = [lit "/render"].
Proof. by vm_compute. Qed.

(** ** The examples of the specification *)

(** Three frames share the schema [frame_#.png], with frame numbers 1, 2
    and 10: the whole run of digits becomes one ['#']. *)
Lemma group_files_frames :
  group_files [lit "frame_001.png"; lit "frame_002.png"; lit "frame_010.png"]
  = Ok {[ lit "frame_#.png" :=
            [(1, lit "frame_001.png"); (2, lit "frame_002.png");
             (10, lit "frame_010.png")] ]}.
Proof. by vm_compute. Qed.

(** Only the last run of digits is replaced, and a name may hold ['#']
    itself. *)
Lemma schema_and_frame_last_run :
  schema_and_frame (lit "shot2_take#_0042.v3.exr")
  = Ok (lit "shot2_take#_0042.v#.exr", 3).
Proof. by vm_compute. Qed.

(** A 2x2 tile followed by a 4x4 tile, two columns, top to bottom: the
    tilemap is 8x4; the small tile sits at the origin of the first cell, the
    rest of that cell is background, and the large tile fills the second
    cell. *)
Lemma compose_small_then_large :
  let small := Sample.solid 2 2 0.5%float in
  let large := Sample.solid 4 4 0.25%float in
  let out := compose [small; large] top_to_bottom (ceil_div 2 2) 2 in
  size out = (8, 4) ∧
  pixel_at out 0 0 = pixel_at small 0 0 ∧
  pixel_at out 1 1 = pixel_at small 1 1 ∧
  pixel_at out 2 0 = background_pixel ∧
  pixel_at out 0 2 = background_pixel ∧
  pixel_at out 4 0 = pixel_at large 0 0 ∧
  pixel_at out 7 3 = pixel_at large 3 3.
Proof. by vm_compute. Qed.

(** ** More on the discovery *)

(** X1: [search] with the regular expression [(\d+)\D*$] fails exactly on
    the names without a digit; on any other name, group 1 is the last run of
    digits: it is not empty, no digit follows it and no digit stands right
    before it. *)
Theorem search_last_numerical_last_run file :
  match Regex.search_last_numerical file with
  | Some (start1, end1) =>
      last_digit_run file (take start1 file)
                     (take (end1 - start1) (drop start1 file))
                     (drop end1 file)
  | None => Forall nondigit file
  end.
Proof.
  unfold Regex.search_last_numerical.
  destruct (Regex.search_from 0 file) as [[start1 end1]|] eqn:Hsearch.
  - apply search_from_sound in Hsearch
      as (pre & ds & post & Hrun & -> & ->). simpl.
    destruct Hrun as [-> Hne Hds Hpost Hmax].
    rewrite take_app_length, drop_app_length.
    replace (length pre + length ds - length pre)%nat with (length ds) by lia.
    rewrite take_app_length.
    rewrite app_assoc, <- length_app, drop_app_length, <- app_assoc.
    by constructor.
  - destruct (decide (Exists digit file)) as [Hex | Hno].
    + apply (search_from_is_Some 0) in Hex as [? Hsome]. congruence.
    + apply not_Exists_Forall in Hno; [| intros c; apply _].
      eapply Forall_impl; [done |]. intros c Hc. by apply not_true_iff_false.
Qed.

Lemma int_of_digits_leading_zero ds :
  int_of_digits ("0"%char :: ds) = int_of_digits ds.
Proof. reflexivity. Qed.

(** X2: leading zeros do not count: a name and the same name with a zero
    put in front of its last run of digits are different files with the
    same schema and the same frame number, so the members of a group need
    not have different frame numbers. *)
Theorem leading_zero_same_schema_and_frame file pre ds post :
  last_digit_run file pre ds post →
  let padded := pre ++ "0"%char :: ds ++ post in
  padded ≠ file ∧
  schema_and_frame padded = schema_and_frame file ∧
  schema_and_frame file = Ok (pre ++ ["#"%char] ++ post, int_of_digits ds).
Proof.
  intros Hrun padded.
  assert (last_digit_run padded pre ("0"%char :: ds) post) as Hpadded.
  { destruct Hrun as [_ Hne Hds Hpost Hmax]. constructor; try done.
    by constructor. }
  split_and!.
  - destruct Hrun as [-> _ _ _ _]. unfold padded.
    intros Heq%(f_equal length). rewrite !length_app in Heq. simpl in Heq.
    rewrite length_app in Heq. lia.
  - rewrite (schema_and_frame_run _ _ _ _ Hpadded).
    by rewrite (schema_and_frame_run _ _ _ _ Hrun), int_of_digits_leading_zero.
  - apply (schema_and_frame_run _ _ _ _ Hrun).
Qed.

Lemma leading_zero_same_schema_and_frame_witness :
  let padded := lit "frame_" ++ "0"%char :: lit "7" ++ lit ".png" in
  padded ≠ lit "frame_7.png" ∧
  schema_and_frame padded = schema_and_frame (lit "frame_7.png") ∧
  schema_and_frame (lit "frame_7.png")
  = Ok (lit "frame_" ++ ["#"%char] ++ lit ".png", int_of_digits (lit "7")).
Proof.
  apply (leading_zero_same_schema_and_frame (lit "frame_7.png")).
  constructor; [done | done | by repeat constructor | by repeat constructor |].
  intros c [= <-]. reflexivity.
Defined.

Lemma members_of_files k files :
  snd <$> members_of k files = filter (λ f, schema_of f = Some k) files.
Proof.
  induction files as [|file files IH]; [done |].
  rewrite members_of_cons, filter_cons.
  destruct (schema_and_frame file) as [[schema frame]|e] eqn:Hsf.
  - assert (schema_of file = Some schema) as Hs
      by (unfold schema_of; by rewrite Hsf).
    destruct (decide (schema = k)) as [-> | Hne].
    + rewrite decide_True by done. rewrite fmap_cons. simpl. by f_equal.
    + rewrite decide_False by congruence. done.
  - assert (schema_of file = None) as Hs by (unfold schema_of; by rewrite Hsf).
    rewrite decide_False by congruence. done.
Qed.

Lemma member_count_insert_new m k members :
  m !! k = None →
  member_count (<[k := members]> m) = (length members + member_count m)%nat.
Proof.
  intros Hk. unfold member_count.
  rewrite map_fold_insert_L; [done | | done].
  intros. unfold add_members. lia.
Qed.

Lemma member_count_insert_old m k members members' :
  m !! k = Some members →
  (member_count (<[k := members']> m) + length members
   = length members' + member_count m)%nat.
Proof.
  intros Hk. rewrite <- (insert_delete_eq m).
  rewrite member_count_insert_new by apply lookup_delete_eq.
  unfold member_count at 2.
  rewrite (map_fold_delete_L _ _ k members m);
    [| intros; unfold add_members; lia | done].
  fold (member_count (delete k m)). unfold add_members. lia.
Qed.

Lemma member_count_for_each m files m' :
  for_each group_file m files = Ok m' →
  member_count m' = (member_count m + length files)%nat.
Proof.
  revert m. induction files as [|file files IH]; intros m; cbn [for_each].
  - intros [= <-]. simpl. lia.
  - destruct (group_file m file) as [m1|e] eqn:Hstep; [| done].
    intros ->%IH. unfold group_file in Hstep.
    destruct (schema_and_frame file) as [[schema frame]|]; [| done].
    destruct (m !! schema) as [members|] eqn:Hk; injection Hstep as <-.
    + pose proof (member_count_insert_old m schema members
                    (members ++ [(frame, file)]) Hk) as Hcount.
      rewrite length_app in Hcount. simpl in *. lia.
    + rewrite member_count_insert_new by done. simpl. lia.
Qed.

(** X3: when discovery returns, it has put every regular file of the
    directory into exactly one group: the group of a schema holds the files
    with that schema, each as often as it is listed and in the order of the
    listing, and the groups together have as many members as there are
    files. *)
Theorem discover_partitions_listing h path w found w' :
  isdir h (strip path) = true →
  discover_image_sequences_in_folder h path w = (Ok found, w') →
  let files := regular_files h (strip path) in
  (∀ schema,
     snd <$> default [] (found !! schema)
     = filter (λ f, schema_of f = Some schema) files) ∧
  member_count found = length files.
Proof.
  intros Hdir. rewrite discover_unfold, Hdir. intros [= Hrun _] files.
  fold files in Hrun. split.
  - intros schema.
    destruct (group_files_cases files) as [(found' & Hrun' & Hall) | [Hrun' _]];
      [| congruence].
    destruct (group_files_Ok files Hall) as (found1 & Hrun1 & Hfound).
    assert (found1 = found) as -> by congruence.
    rewrite Hfound, <- members_of_files.
    by destruct (members_of schema files).
  - apply member_count_for_each in Hrun. rewrite Hrun.
    unfold member_count. by rewrite map_fold_empty.
Qed.

Lemma discover_partitions_listing_witness :
  let h := Sample.host (lit "/render") Sample.frames in
  let found := match (discover_image_sequences_in_folder
                        h (lit "/render") Sample.fresh_world).1 with
               | Ok found => found
               | Raise _ => ∅
               end in
  let files := regular_files h (strip (lit "/render")) in
  (∀ schema,
     snd <$> default [] (found !! schema)
     = filter (λ f, schema_of f = Some schema) files) ∧
  member_count found = length files.
Proof.
  intros h found.
  apply (discover_partitions_listing h (lit "/render") Sample.fresh_world found
           (listing (lit "/render") Sample.fresh_world)).
  - reflexivity.
  - by vm_compute.
Defined.

(** ** More on the cache *)

(** X4: once a call for a path has returned a mapping, every further call
    for that path returns the same mapping and leaves the world as it is,
    whatever the directory holds by then: changes on disk are not seen until
    the cache is marked dirty or another path is asked for. *)
Theorem cache_answers_without_scanning h h' path w found w' :
  get_image_sequences_in_folder h path w = (Ok found, w') →
  cache_hit path (globals w') = true ∧
  get_image_sequences_in_folder h' path w' = (Ok found, w').
Proof.
  intros Hget. split; [| by eapply get_image_sequences_memoized].
  revert Hget. rewrite get_image_sequences_unfold.
  destruct (cache_hit path (globals w)) eqn:Hhit; [by intros [= _ <-] |].
  destruct (discover_image_sequences_in_folder h path w) as [[found1|e] w1];
    [| done].
  intros [= _ <-]. unfold cache_hit. simpl. by rewrite bool_decide_eq_true_2.
Qed.

Lemma cache_answers_without_scanning_witness :
  let h := Sample.host (lit "/render") Sample.frames in
  let h' := Sample.host (lit "/render") [] in
  let r := get_image_sequences_in_folder h (lit "/render") Sample.fresh_world in
  let found := match r.1 with Ok found => found | Raise _ => ∅ end in
  cache_hit (lit "/render") (globals r.2) = true ∧
  get_image_sequences_in_folder h' (lit "/render") r.2 = (Ok found, r.2).
Proof.
  intros h h' r found.
  apply (cache_answers_without_scanning h h' (lit "/render") Sample.fresh_world).
  by vm_compute.
Defined.

(** X5: after the refresh operator has marked the cache dirty, the next
    call, for any path, gives what the discovery gives on the directory as
    it is now (a mapping or an exception), also for the path that was
    cached. *)
Theorem mark_dirty_forces_scan h path w :
  let w1 := (mark_image_sequences_cache_dirty w).2 in
  (mark_image_sequences_cache_dirty w).1 = Ok () ∧
  (get_image_sequences_in_folder h path w1).1
  = (discover_image_sequences_in_folder h path w1).1.
Proof.
  intros w1. split; [done |]. rewrite get_image_sequences_unfold.
  assert (cache_hit path (globals w1) = false) as ->.
  { unfold cache_hit, w1. simpl. apply andb_false_r. }
  by destruct (discover_image_sequences_in_folder h path w1) as [[found|e] w2].
Qed.

(** X6: a call that raises stores nothing.  The exception is the one that
    the discovery of the path raises, the cache globals and the image data
    blocks are as before the call, the cache still does not answer for the
    path, and the next call for the path, on whatever the file system holds
    then, gives what a discovery gives. *)
Theorem failed_scan_keeps_cache h path w e w' :
  get_image_sequences_in_folder h path w = (Raise e, w') →
  (discover_image_sequences_in_folder h path w).1 = Raise e ∧
  globals w' = globals w ∧
  bpy_data_images w' = bpy_data_images w ∧
  cache_hit path (globals w') = false ∧
  ∀ h', (get_image_sequences_in_folder h' path w').1
        = (discover_image_sequences_in_folder h' path w').1.
Proof.
  intros Hget.
  pose proof (get_image_sequences_images _ _ _ _ _ Hget) as Himgs.
  revert Hget. rewrite get_image_sequences_unfold.
  destruct (cache_hit path (globals w)) eqn:Hhit; [done |].
  destruct (discover_image_sequences_in_folder h path w) as [[found|e'] w1]
    eqn:Hdiscover; [done |].
  intros [= <- <-].
  assert (globals w1 = globals w) as Hglobals.
  { revert Hdiscover. rewrite discover_unfold.
    destruct (isdir h (strip path)); by intros [= _ <-]. }
  rewrite Hglobals. split_and!; try done.
  intros h'. rewrite get_image_sequences_unfold, Hglobals, Hhit.
  by destruct (discover_image_sequences_in_folder h' path w1) as [[found|e2] w2].
Qed.

Lemma failed_scan_keeps_cache_witness :
  let h := Sample.host (lit "/render") Sample.frames_and_readme in
  let w := Sample.fresh_world in
  let w' := (get_image_sequences_in_folder h (lit "/render") w).2 in
  (discover_image_sequences_in_folder h (lit "/render") w).1
  = Raise AttributeError ∧
  globals w' = globals w ∧
  bpy_data_images w' = bpy_data_images w ∧
  cache_hit (lit "/render") (globals w') = false ∧
  ∀ h', (get_image_sequences_in_folder h' (lit "/render") w').1
        = (discover_image_sequences_in_folder h' (lit "/render") w').1.
Proof.
  intros h w w'.
  apply (failed_scan_keeps_cache h (lit "/render") w AttributeError w').
  by vm_compute.
Defined.

(** X7: a path that is not a directory gives the empty mapping without
    an exception and without listing anything, and this answer is cached:
    when the directory exists later, calls for the path still return the
    empty mapping. *)
Theorem missing_directory_is_cached h h' path w :
  isdir h (strip path) = false →
  cache_hit path (globals w) = false →
  ∃ w',
    get_image_sequences_in_folder h path w = (Ok ∅, w') ∧
    listed w' = listed w ∧
    get_image_sequences_in_folder h' path w' = (Ok ∅, w').
Proof.
  intros Hdir Hmiss.
  assert (∃ w', get_image_sequences_in_folder h path w = (Ok ∅, w')
                ∧ listed w' = listed w) as (w' & Hget & Hlisted).
  { rewrite get_image_sequences_unfold, Hmiss, discover_unfold, Hdir. eauto. }
  exists w'. split_and!; [done | done |].
  by eapply get_image_sequences_memoized.
Qed.

Lemma missing_directory_is_cached_witness :
  ∃ w',
    get_image_sequences_in_folder (Sample.host (lit "/render") Sample.frames)
      (lit "/elsewhere") Sample.fresh_world = (Ok ∅, w') ∧
    listed w' = listed Sample.fresh_world ∧
    get_image_sequences_in_folder (Sample.host (lit "/elsewhere") Sample.frames)
      (lit "/elsewhere") w' = (Ok ∅, w').
Proof. by apply missing_directory_is_cached. Defined.

(** * More on the operator's inputs *)

(** ** The order of the file names *)

Lemma N_of_ascii_inj x y : N_of_ascii x = N_of_ascii y → x = y.
Proof.
  intros Heq. rewrite <- (ascii_N_embedding x), <- (ascii_N_embedding y).
  by rewrite Heq.
Qed.

Lemma str_leb_total a b : str_leb a b = false → str_leb b a = true.
Proof.
  revert b. induction a as [|x a IH]; intros [|y b]; simpl; try done.
  destruct (N.ltb_spec (N_of_ascii x) (N_of_ascii y)); [done |].
  destruct (N.ltb_spec (N_of_ascii y) (N_of_ascii x)); [done |].
  apply IH.
Qed.

Lemma str_leb_trans a b c :
  str_leb a b = true → str_leb b c = true → str_leb a c = true.
Proof.
  revert b c. induction a as [|x a IH]; intros [|y b] [|z c]; simpl; try done.
  destruct (N.ltb_spec (N_of_ascii x) (N_of_ascii y)),
           (N.ltb_spec (N_of_ascii y) (N_of_ascii x)),
           (N.ltb_spec (N_of_ascii y) (N_of_ascii z)),
           (N.ltb_spec (N_of_ascii z) (N_of_ascii y)),
           (N.ltb_spec (N_of_ascii x) (N_of_ascii z)),
           (N.ltb_spec (N_of_ascii z) (N_of_ascii x));
    try done; try lia.
  apply IH.
Qed.

Lemma str_leb_antisym a b :
  str_leb a b = true → str_leb b a = true → a = b.
Proof.
  revert b. induction a as [|x a IH]; intros [|y b]; simpl; try done.
  destruct (N.ltb_spec (N_of_ascii x) (N_of_ascii y)),
           (N.ltb_spec (N_of_ascii y) (N_of_ascii x));
    try done; try lia.
  intros Hab Hba. f_equal; [apply N_of_ascii_inj; lia | by apply IH].
Qed.

Lemma StronglySorted_insert_by {A} (key : A → str) x l :
  StronglySorted (key_le key) l →
  StronglySorted (key_le key) (insert_by key x l).
Proof.
  induction l as [|y l IH]; simpl; intros Hl.
  - by repeat constructor.
  - apply StronglySorted_cons in Hl as [Hy Hl].
    destruct (str_leb (key y) (key x)) eqn:Hyx.
    + apply StronglySorted_cons. split; [| by apply IH].
      rewrite insert_by_Permutation. by constructor.
    + apply str_leb_total in Hyx.
      apply StronglySorted_cons. split; [| by apply StronglySorted_cons].
      constructor; [done |].
      eapply Forall_impl; [exact Hy |]. intros z Hyz.
      by apply (str_leb_trans _ (key y)).
Qed.

Lemma StronglySorted_sorted {A} (key : A → str) l :
  StronglySorted (key_le key) (sorted key l).
Proof.
  unfold sorted.
  assert (∀ acc, StronglySorted (key_le key) acc →
                 StronglySorted (key_le key)
                   (foldl (λ acc x, insert_by key x acc) acc l)) as Hgen.
  { induction l as [|x l IH]; intros acc Hacc; simpl; [done |].
    by apply IH, StronglySorted_insert_by. }
  apply Hgen. constructor.
Qed.

(** X8: the operator loads the files of a sequence in the ascending order
    of their names (character by character, by code), not of their frame
    numbers: the list of files is a rearrangement of the members' file
    names, each name is at most every later one, and two member lists with
    the same file names give the same list of files, whatever their frame
    numbers and their order. *)
Theorem files_in_name_order (members members' : list (Z * str)) :
  let files := snd <$> sorted snd members in
  files ≡ₚ snd <$> members ∧
  StronglySorted str_le files ∧
  (snd <$> members' ≡ₚ snd <$> members → snd <$> sorted snd members' = files).
Proof.
  intros files.
  assert (∀ l : list (Z * str), StronglySorted str_le (snd <$> sorted snd l))
    as Hsorted.
  { intros l. eapply StronglySorted_fmap; [| apply StronglySorted_sorted].
    by intros a b. }
  split_and!.
  - unfold files. by rewrite sorted_Permutation.
  - apply Hsorted.
  - intros Hperm. apply (StronglySorted_unique_strong str_le); try apply Hsorted.
    + intros a b _ _. apply str_leb_antisym.
    + unfold files. by rewrite !sorted_Permutation.
Qed.

(** ** The empty tiles that the panel reports *)

Lemma image_count_get_Ok h props w n w' :
  image_count_get h props w = (Ok n, w') →
  0 ≤ n ∧ ∀ h', image_count_get h' props w' = (Ok n, w').
Proof.
  unfold image_count_get. intros (found & w1 & Hget & Hret)%bind_Ok.
  injection Hret as <- <-. split.
  - destruct (found !! sequence props); lia.
  - intros h'. apply bind_Ok. exists found, w1. split; [| done].
    exact (get_image_sequences_memoized h h' _ _ _ _ Hget).
Qed.

(** X9: with at least one column, the panel draws the label for the empty
    tiles exactly when the image count is not a multiple of the column
    count; the number on it is at least 1, less than the column count, and
    fills the image count up to a multiple of the column count.  The grid
    of [column_count * row_count] cells is therefore never short of a cell
    and never has an empty row. *)
Theorem empty_tiles_label_fills_last_row h props w r w' :
  1 ≤ column_count props →
  empty_tiles_label h props w = (Ok r, w') →
  ∃ image_count,
    (image_count_get h props w).1 = Ok image_count ∧
    match r with
    | Some unused_tiles =>
        1 ≤ unused_tiles < column_count props ∧
        (column_count props | image_count + unused_tiles)
    | None => (column_count props | image_count)
    end.
Proof.
  intros Hc. unfold empty_tiles_label.
  intros (n & w1 & Hcount & Hrun)%bind_Ok.
  exists n. rewrite Hcount. split; [done |].
  destruct (image_count_get_Ok _ _ _ _ _ Hcount) as [Hn Hagain].
  destruct (Z.ltb_spec 0 n) as [Hpos | Hzero].
  - apply bind_Ok in Hrun as (row_count & w2 & Hrows & Hrun).
    unfold row_count_get in Hrows.
    apply bind_Ok in Hrows as (n' & w2' & Hcount' & Hrows).
    rewrite (property_read_Ok _ _ _ _ (Hagain h)) in Hcount'.
    injection Hcount' as <- <-.
    destruct (Z.eqb_spec (column_count props) 0); [lia |].
    injection Hrows as <- <-.
    apply bind_Ok in Hrun as (n' & w2' & Hcount' & Hrun).
    rewrite Hagain in Hcount'. injection Hcount' as <- <-.
    injection Hrun as <- <-.
    pose proof (ceil_div_is_ceil n (column_count props) Hc) as Hceil.
    unfold is_ceil in Hceil.
    destruct (Z.ltb_spec 0 (column_count props * ceil_div n (column_count props) - n)).
    + split; [nia |]. exists (ceil_div n (column_count props)). lia.
    + exists (ceil_div n (column_count props)). nia.
  - injection Hrun as <- <-. assert (n = 0) as -> by lia. apply Z.divide_0_r.
Qed.

Lemma empty_tiles_label_fills_last_row_witness :
  let h := Sample.host (lit "/render")
             [(lit "a1.png", Sample.solid 1 1 0.5%float);
              (lit "a2.png", Sample.solid 1 1 0.5%float);
              (lit "a3.png", Sample.solid 1 1 0.5%float)] in
  let props := {| path := lit "/render"; sequence := lit "a#.png";
                  column_count := 2; row_order := top_to_bottom;
                  output_name := lit "Texture Atlas";
                  overwrite_existing := false |} in
  let w := Sample.fresh_world in
  ∃ image_count,
    (image_count_get h props w).1 = Ok image_count ∧
    match (empty_tiles_label h props w).1 with
    | Ok (Some unused_tiles) =>
        1 ≤ unused_tiles < 2 ∧ (2 | image_count + unused_tiles)
    | _ => False
    end.
Proof.
  intros h props w.
  destruct (empty_tiles_label_fills_last_row h props w (Some 1)
              (empty_tiles_label h props w).2 ltac:(simpl; lia)
              ltac:(by vm_compute)) as (n & Hn & Hr).
  exists n. split; [done |]. exact Hr.
Defined.

(** ** The cells of the tiles *)

(** X10: with at least one column, two different tile indices never get
    the same row and column of the grid, in either row order: no pixel is
    in the cells of two tiles. *)
Theorem tiles_in_distinct_cells row_order row_count column_count cw ch i j :
  1 ≤ column_count → i ≠ j →
  ∀ X Y,
    ¬ (in_cell cw ch (row_index_of row_order row_count column_count i)
               (column_index_of column_count i) X Y ∧
       in_cell cw ch (row_index_of row_order row_count column_count j)
               (column_index_of column_count j) X Y).
Proof.
  intros Hc Hne X Y [Hi Hj].
  destruct (in_cell_inj _ _ _ _ _ _ _ _ Hi Hj) as [Hrow Hcol].
  by apply Hne, (grid_position_inj row_order row_count column_count).
Qed.

Lemma tiles_in_distinct_cells_witness :
  in_cell 4 4 (row_index_of top_to_bottom 2 2 3) (column_index_of 2 3) 5 1 ∧
  ¬ (in_cell 4 4 (row_index_of top_to_bottom 2 2 0) (column_index_of 2 0) 5 1 ∧
     in_cell 4 4 (row_index_of top_to_bottom 2 2 3) (column_index_of 2 3) 5 1).
Proof.
  split; [by vm_compute |].
  apply (tiles_in_distinct_cells top_to_bottom 2 2 4 4 0 3); lia.
Defined.

(** * More on the compositor: one turn of the loop over the tiles *)

(** ** A tile of any size *)

Section block_of_tile.
Context (W H tw th r col : Z).
Context (Htw : 0 ≤ tw) (Hth : 0 ≤ th) (Hr : 0 ≤ r) (Hcol : 0 ≤ col).
Context (Hright : col * tw + tw ≤ W) (Hbottom : r * th + th ≤ H).

(** Line [y] of the tile, as pixel numbers of the tilemap: the line
    [r * th + y], from the column [col * tw] on. *)
Lemma line_write_block tile_img y :
  size tile_img = (tw, th) →
  line_write (W, H) tile_img r col y =
  (((r * th + y) * W + col * tw) * 4,
   ((r * th + y) * W + col * tw) * 4 + tw * 4,
   slice_get (pixels tile_img) (y * tw * 4) (y * tw * 4 + tw * 4)).
Proof.
  intros Hsize. unfold line_write. rewrite Hsize. cbn [fst snd].
  f_equal. f_equal; ring.
Qed.

Lemma line_write_block_bounds tile_img y :
  Image_wf tile_img → size tile_img = (tw, th) → 0 ≤ y < th →
  0 ≤ ((r * th + y) * W + col * tw) * 4 ∧
  ((r * th + y) * W + col * tw) * 4 + tw * 4 ≤ W * H * 4 ∧
  Z.of_nat (length (slice_get (pixels tile_img) (y * tw * 4)
                              (y * tw * 4 + tw * 4))) = tw * 4.
Proof.
  intros [_ _ Hpx] Hsize Hy. rewrite Hsize in Hpx. cbn [fst snd] in Hpx.
  assert (r * th + y ≤ H - 1) by nia.
  assert (0 ≤ r * th + y) by nia.
  assert (0 ≤ col * tw) by nia.
  assert (0 ≤ W) by nia.
  split_and!; [nia | nia |].
  rewrite length_slice_get; [lia | nia | nia].
Qed.

Lemma length_copy_line_block tile_img y tilemap_pixels :
  Image_wf tile_img → size tile_img = (tw, th) → 0 ≤ y < th →
  Z.of_nat (length tilemap_pixels) = W * H * 4 →
  Z.of_nat (length (copy_line (W, H) tile_img r col tilemap_pixels y))
  = W * H * 4.
Proof.
  intros Hwf Hsize Hy Hlen. unfold copy_line.
  rewrite line_write_block by done.
  destruct (line_write_block_bounds tile_img y) as (H1 & H2 & H3); try done.
  rewrite length_slice_set; lia.
Qed.

Lemma copy_line_block_written tile_img y x tilemap_pixels :
  Image_wf tile_img → size tile_img = (tw, th) → 0 ≤ y < th → 0 ≤ x < tw →
  Z.of_nat (length tilemap_pixels) = W * H * 4 →
  nth_pixel (copy_line (W, H) tile_img r col tilemap_pixels y)
            ((r * th + y) * W + (col * tw + x))
  = nth_pixel (pixels tile_img) (y * tw + x).
Proof.
  intros Hwf Hsize Hy Hx Hlen. unfold copy_line, nth_pixel.
  rewrite line_write_block by done.
  destruct (line_write_block_bounds tile_img y) as (H1 & H2 & H3); try done.
  destruct Hwf as [_ _ Hpx]. rewrite Hsize in Hpx. cbn [fst snd] in Hpx.
  rewrite slice_get_set_within by lia.
  rewrite slice_get_slice_get by nia.
  f_equal; lia.
Qed.

Lemma copy_line_block_kept tile_img y X Y tilemap_pixels :
  Image_wf tile_img → size tile_img = (tw, th) → 0 ≤ y < th →
  0 ≤ X < W → 0 ≤ Y < H →
  ¬ (Y = r * th + y ∧ col * tw ≤ X < col * tw + tw) →
  Z.of_nat (length tilemap_pixels) = W * H * 4 →
  nth_pixel (copy_line (W, H) tile_img r col tilemap_pixels y) (Y * W + X)
  = nth_pixel tilemap_pixels (Y * W + X).
Proof.
  intros Hwf Hsize Hy HX HY Hout Hlen. unfold copy_line, nth_pixel.
  rewrite line_write_block by done.
  destruct (line_write_block_bounds tile_img y) as (H1 & H2 & H3); try done.
  assert (0 ≤ col * tw) by nia.
  assert (0 ≤ Y * W + X ∧ (Y * W + X) * 4 + 4 ≤ W * H * 4) as [Hp0 Hp1] by nia.
  apply slice_get_set_outside; try lia.
  destruct (Z.lt_trichotomy Y (r * th + y)) as [Hlt | [Heq | Hgt]].
  - left. nia.
  - subst Y. destruct (Z.lt_ge_cases X (col * tw)); [left; nia |].
    right. assert (col * tw + tw ≤ X) by lia. nia.
  - right. nia.
Qed.

(** The lines of the tile: after the first [m] of them. *)
Lemma copy_lines_block tile_img tilemap_pixels (m : nat) :
  Image_wf tile_img → size tile_img = (tw, th) → Z.of_nat m ≤ th →
  Z.of_nat (length tilemap_pixels) = W * H * 4 →
  let after := foldl (copy_line (W, H) tile_img r col) tilemap_pixels
                     (range (Z.of_nat m)) in
  Z.of_nat (length after) = W * H * 4 ∧
  (∀ x y, 0 ≤ x < tw → 0 ≤ y < Z.of_nat m →
     nth_pixel after ((r * th + y) * W + (col * tw + x))
     = nth_pixel (pixels tile_img) (y * tw + x)) ∧
  (∀ X Y, 0 ≤ X < W → 0 ≤ Y < H → ¬ in_cell tw th r col X Y →
     nth_pixel after (Y * W + X) = nth_pixel tilemap_pixels (Y * W + X)).
Proof.
  intros Hwf Hsize Hm Hlen. induction m as [|m IH].
  - simpl. split_and!; [done | lia | done].
  - unfold range in *. rewrite seqZ_S, foldl_app, Z.add_0_l. cbn [foldl].
    destruct IH as (IHlen & IHin & IHout); [lia |].
    set (before := foldl _ tilemap_pixels (seqZ 0 (Z.of_nat m))) in *.
    split_and!.
    + apply length_copy_line_block; try done. lia.
    + intros x y Hx Hy. destruct (decide (y = Z.of_nat m)) as [-> | Hne].
      * apply copy_line_block_written; try done. lia.
      * rewrite copy_line_block_kept; try done; try nia. apply IHin; lia.
    + intros X Y HX HY Hout. rewrite copy_line_block_kept; try done; try lia.
      * by apply IHout.
      * intros [-> Hcolumn]. apply Hout. unfold in_cell. lia.
Qed.

End block_of_tile.

(** X14: one turn of the operator's loop over the tiles, for a tile of any
    size.  Tile [i] of the loaded images is copied as one block of its own
    width [tw] and height [th], whose corner is at the pixel
    [(column_index * tw, row_index * th)], multiples of the size of the
    tile and not of the cell; the block lies within the tilemap, every
    pixel of it is the pixel of the tile at the same place, and every other
    pixel of the tilemap is as it was before. *)
Theorem copy_tile_writes_block images row_order column_count (i : nat)
    tile_img tilemap_pixels :
  Forall Image_wf images → 1 ≤ column_count →
  images !! i = Some tile_img →
  let row_count := ceil_div (Z.of_nat (length images)) column_count in
  let tilemap_size :=
    tilemap_size_of (max_size_of images) column_count row_count in
  let row_index := row_index_of row_order row_count column_count (Z.of_nat i) in
  let column_index := column_index_of column_count (Z.of_nat i) in
  let tw := (size tile_img).1 in
  let th := (size tile_img).2 in
  let tilemap pixels := {| size := tilemap_size; pixels := pixels |} in
  Z.of_nat (length tilemap_pixels) = tilemap_size.1 * tilemap_size.2 * 4 →
  let after := copy_tile tilemap_size row_order row_count column_count
                         tilemap_pixels (Z.of_nat i, tile_img) in
  (0 ≤ column_index * tw ∧ column_index * tw + tw ≤ tilemap_size.1 ∧
   0 ≤ row_index * th ∧ row_index * th + th ≤ tilemap_size.2) ∧
  ∀ X Y, 0 ≤ X < tilemap_size.1 → 0 ≤ Y < tilemap_size.2 →
    (in_cell tw th row_index column_index X Y →
     pixel_at (tilemap after) X Y
     = pixel_at tile_img (X - column_index * tw) (Y - row_index * th)) ∧
    (¬ in_cell tw th row_index column_index X Y →
     pixel_at (tilemap after) X Y = pixel_at (tilemap tilemap_pixels) X Y).
Proof.
  intros Hwf Hc Hi row_count tilemap_size r col tw th tilemap Hlen after.
  pose proof (list_elem_of_lookup_2 _ _ _ Hi) as Hin.
  destruct (max_size_of_bounds images tile_img Hin) as [Hmw Hmh].
  pose proof (proj1 (Forall_forall _ _) Hwf tile_img Hin) as Htile.
  destruct (Htile) as [Htw Hth _]. fold tw th in Htw, Hth, Hmw, Hmh.
  pose proof (lookup_lt_Some _ _ _ Hi) as Hlt.
  pose proof (row_index_of_bounds row_order (Z.of_nat (length images))
                column_count (Z.of_nat i) Hc ltac:(lia)) as Hr.
  fold row_count r in Hr.
  pose proof (Z.mod_pos_bound (Z.of_nat i) column_count ltac:(lia)) as Hcol.
  fold (column_index_of column_count (Z.of_nat i)) in Hcol. fold col in Hcol.
  destruct (max_size_of images) as [mw mh] eqn:Hmax.
  unfold tilemap_size_of in tilemap_size. cbn [fst snd] in *.
  set (W := mw * column_count) in *. set (H := mh * row_count) in *.
  assert (col * tw + tw ≤ W) as Hright by (unfold W; nia).
  assert (r * th + th ≤ H) as Hbottom by (unfold H; nia).
  assert (0 ≤ r * th) by nia. assert (0 ≤ col * tw) by nia.
  split; [done |].
  assert (size tile_img = (tw, th)) as Hsize
    by (unfold tw, th; by destruct (size tile_img)).
  destruct (copy_lines_block W H tw th r col Htw Hth ltac:(lia) ltac:(lia)
              Hright Hbottom tile_img tilemap_pixels (Z.to_nat th)
              Htile Hsize ltac:(lia) Hlen) as (_ & Hblock & Hrest).
  rewrite Z2Nat.id in Hblock, Hrest by done.
  assert (after = foldl (copy_line (W, H) tile_img r col) tilemap_pixels
                        (range th)) as -> by done.
  intros X Y HX HY. unfold pixel_at. subst tilemap tilemap_size.
  cbn [size pixels fst snd] in *. split.
  - intros [HYin HXin]. fold tw.
    replace (Y * W + X)
      with ((r * th + (Y - r * th)) * W + (col * tw + (X - col * tw))) by ring.
    apply Hblock; lia.
  - intros Hout. by apply Hrest.
Qed.

Lemma copy_tile_writes_block_witness :
  let images := Tiles.large_small in
  let tilemap_size := tilemap_size_of (max_size_of images) 2 (ceil_div 2 2) in
  let after := copy_tile tilemap_size top_to_bottom (ceil_div 2 2) 2
                         (background tilemap_size)
                         (1, Sample.solid 2 2 0.5%float) in
  pixel_at {| size := tilemap_size; pixels := after |} 3 1
  = pixel_at (Sample.solid 2 2 0.5%float) 1 1.
Proof.
  intros images tilemap_size after.
  refine (proj1 (proj2 (copy_tile_writes_block images top_to_bottom 2 1
                          (Sample.solid 2 2 0.5%float)
                          (background tilemap_size) _ _ _ _) 3 1 _ _) _).
  - repeat constructor; by vm_compute.
  - lia.
  - reflexivity.
  - by vm_compute.
  - by vm_compute.
  - by vm_compute.
  - by vm_compute.
Defined.

(** * More on the operator *)

(** ** Runs of the operator *)

(** The images of an example host are well formed when its files are. *)
Lemma sample_host_wf dir files :
  Forall (λ f, Image_wf f.2) files →
  ∀ filepath img,
    load_image (Sample.host dir files) filepath = Ok img → Image_wf img.
Proof.
  intros Hfiles filepath img. cbn [load_image Sample.host].
  destruct (list_find _ files) as [[i [name img']]|] eqn:Hfind; [| done].
  intros [= <-]. apply list_find_Some in Hfind as (Hlookup & _).
  apply (Forall_lookup_1 _ _ _ _ Hfiles Hlookup).
Qed.

(** The operator runs twice with [overwrite_existing] set: the second run
    removes the tilemap of the first, data block 2, and makes data block
    5. *)
Lemma execute_Ok_witness :
  let h := Sample.host (lit "/render")
             [(lit "frame_002.png", Sample.solid 1 1 0.5%float);
              (lit "frame_001.png", Sample.solid 1 1 0.25%float)] in
  let props := {| path := lit "/render"; sequence := lit "frame_#.png";
                  column_count := 2; row_order := top_to_bottom;
                  output_name := lit "Texture Atlas";
                  overwrite_existing := true |} in
  let w := (execute h props Sample.fresh_world).2 in
  let w' := (execute h props w).2 in
  ∃ found members tiles name base,
    (get_image_sequences_in_folder h (path props) w).1 = Ok found ∧
    found !! sequence props = Some members ∧
    members ≠ [] ∧ column_count props ≠ 0 ∧
    Forall2 (λ file tile, load_image h (join h (path props) file) = Ok tile)
            (snd <$> sorted snd members) tiles ∧
    ((base = blocks (bpy_data_images w) ∧
      (overwrite_existing props = false ∨
       ∀ img block, blocks (bpy_data_images w) !! img = Some block →
                    block_name block ≠ output_name props)) ∨
     (overwrite_existing props = true ∧
      ∃ existing block,
        blocks (bpy_data_images w) !! existing = Some block ∧
        block_name block = output_name props ∧
        base = delete existing (blocks (bpy_data_images w)))) ∧
    blocks (bpy_data_images w) !! 5%nat = None ∧
    let tilemap :=
      compose tiles (row_order props)
              (ceil_div (Z.of_nat (length tiles)) (column_count props))
              (column_count props) in
    blocks (bpy_data_images w')
    = <[5%nat :=
          {| block_name := name;
             block_image := {| size := size tilemap;
                               pixels := store_pixels h (pixels tilemap) |} |}]>
        base.
Proof.
  intros h props w w'.
  apply (execute_Ok h props w 5%nat w'); [| by vm_compute].
  apply (preserves_execute h props Sample.fresh_world
           (execute h props Sample.fresh_world).1 w world_inv_fresh).
  by destruct (execute h props Sample.fresh_world).
Defined.

(** Two frames of 2x2 and 4x4 pixels in two columns: the tilemap is 8x4. *)
Lemma execute_tilemap_size_witness :
  let h := Sample.host (lit "/render") Sample.frames in
  let props := {| path := lit "/render"; sequence := lit "frame_#.png";
                  column_count := 2; row_order := top_to_bottom;
                  output_name := lit "Texture Atlas";
                  overwrite_existing := false |} in
  let w := Sample.fresh_world in
  let w' := (execute h props w).2 in
  ∃ found members tiles block cell_width cell_height row_count,
    (get_image_sequences_in_folder h (path props) w).1 = Ok found ∧
    found !! sequence props = Some members ∧
    Forall2 (λ file tile, load_image h (join h (path props) file) = Ok tile)
            (snd <$> sorted snd members) tiles ∧
    tiles ≠ [] ∧
    is_max cell_width ((λ img, (size img).1) <$> tiles) ∧
    is_max cell_height ((λ img, (size img).2) <$> tiles) ∧
    is_ceil row_count (Z.of_nat (length tiles)) (column_count props) ∧
    blocks (bpy_data_images w') !! 2%nat = Some block ∧
    size (block_image block)
    = (cell_width * column_count props, cell_height * row_count).
Proof.
  intros h props w w'.
  apply (execute_tilemap_size h props w 2%nat w').
  - apply world_inv_fresh.
  - apply sample_host_wf. repeat constructor; by vm_compute.
  - cbn. lia.
  - by vm_compute.
Defined.

Lemma world_inv_step_witness :
  let h := Sample.host (lit "/render")
             [(lit "frame_002.png", Sample.solid 1 1 0.5%float);
              (lit "frame_001.png", Sample.solid 1 1 0.25%float)] in
  let props := {| path := lit "/render"; sequence := lit "frame_#.png";
                  column_count := 2; row_order := top_to_bottom;
                  output_name := lit "Texture Atlas";
                  overwrite_existing := false |} in
  world_inv (execute h props Sample.fresh_world).2.
Proof.
  intros h props.
  apply (world_inv_step Sample.fresh_world (execute h props Sample.fresh_world).2).
  - apply world_inv_fresh.
  - apply (step_execute h props Sample.fresh_world
                        (execute h props Sample.fresh_world).1).
    by destruct (execute h props Sample.fresh_world).
Defined.

Lemma compose_cell_sized_tiles_witness :
  let images := [Sample.solid 2 2 0.25%float; Sample.solid 2 2 0.5%float;
                 Sample.solid 2 2 0.75%float] in
  let out := compose images top_to_bottom (ceil_div 3 2) 2 in
  pixel_at out (column_index_of 2 1 * 2 + 1)
               (row_index_of top_to_bottom (ceil_div 3 2) 2 1 * 2 + 0)
  = pixel_at (Sample.solid 2 2 0.5%float) 1 0.
Proof.
  intros images out.
  refine (compose_cell_sized_tiles images top_to_bottom 2 _ _ _ 1 1 0 _ _ _).
  - repeat constructor; by vm_compute.
  - lia.
  - intros img Himg. repeat (apply elem_of_cons in Himg as [-> | Himg]);
      [by vm_compute .. | by apply elem_of_nil in Himg].
  - by vm_compute.
  - by vm_compute.
  - by vm_compute.
Defined.

(** ** A file that cannot be loaded *)

(** The loop that loads the tiles stops at the first file that cannot be
    loaded; the data blocks of the files before it are there. *)
Lemma load_tiles_Raise h folder_path loaded tiles file rest e :
  Forall2 (λ f tile, load_image h (join h folder_path f) = Ok tile)
          loaded tiles →
  load_image h (join h folder_path file) = Raise e →
  ∀ images0 max_size0 w,
    let first := next_block (bpy_data_images w) in
    ∃ w',
      load_tiles h folder_path (loaded ++ file :: rest) images0 max_size0 w
      = (Raise e, w') ∧
      globals w' = globals w ∧ listed w' = listed w ∧
      next_block (bpy_data_images w') = (first + length loaded)%nat ∧
      (∀ img, (img < first ∨ first + length loaded ≤ img)%nat →
         blocks (bpy_data_images w') !! img
         = blocks (bpy_data_images w) !! img) ∧
      (∀ i tile, tiles !! i = Some tile →
         ∃ name, blocks (bpy_data_images w') !! (first + i)%nat
                 = Some {| block_name := name; block_image := tile |}).
Proof.
  intros Hloads Hfail.
  induction Hloads as [|f tile loaded tiles Hf Hloads IH];
    intros images0 max_size0 w first.
  - exists w. cbn [app load_tiles length]. split_and!; try done.
    apply bind_raise. unfold images_load. apply bind_raise.
    unfold lift. by rewrite Hfail.
  - set (block := {| block_name :=
                       fresh_name h (images_keys (bpy_data_images w))
                                  (basename h (join h folder_path f));
                     block_image := tile |}).
    set (w1 := {| globals := globals w;
                  bpy_data_images :=
                    {| blocks := <[first := block]> (blocks (bpy_data_images w));
                       next_block := S first |};
                  listed := listed w |}).
    destruct (IH (images0 ++ [first]) (grow_max_size max_size0 tile) w1)
      as (w' & Hrun & Hg & Hl & Hn & Hold & Hnew).
    cbn [bpy_data_images next_block blocks globals listed w1] in *.
    exists w'. split_and!.
    + cbn [app load_tiles].
      assert (images_load h (join h folder_path f) w = (Ok first, w1)) as Hload.
      { unfold images_load. rewrite (bind_run _ _ w tile w); [done |].
        unfold lift. by rewrite Hf. }
      rewrite (bind_run _ _ _ _ _ Hload).
      assert (images_read first w1 = (Ok tile, w1)) as Hread.
      { unfold images_read, get_images, mbind, M_bind. cbn.
        by rewrite lookup_insert_eq. }
      rewrite (bind_run _ _ _ _ _ Hread). exact Hrun.
    + done.
    + done.
    + rewrite Hn. cbn [length]. lia.
    + intros img Himg. cbn [length] in Himg. rewrite Hold by lia.
      apply lookup_insert_ne. lia.
    + intros [|i] tile' Htile; cbn in Htile.
      * injection Htile as <-. rewrite Nat.add_0_r, Hold by lia.
        rewrite lookup_insert_eq. by exists (block_name block).
      * replace (first + S i)%nat with (S first + i)%nat by lia.
        by apply Hnew.
Qed.

(** X15: when one of the files of the selected sequence cannot be loaded,
    the operator ends with the exception of the load.  It has made no
    tilemap and removed nothing, and the tiles that it loaded before that
    file are still in [bpy.data.images]: the clean-up at the end of the
    operator is not reached. *)
Theorem execute_failed_load_leaves_tiles h props w found members
    loaded file rest tiles e :
  (get_image_sequences_in_folder h (path props) w).1 = Ok found →
  found !! sequence props = Some members →
  snd <$> sorted snd members = loaded ++ file :: rest →
  Forall2 (λ f tile, load_image h (join h (path props) f) = Ok tile)
          loaded tiles →
  load_image h (join h (path props) file) = Raise e →
  let first := next_block (bpy_data_images w) in
  ∃ w',
    execute h props w = (Raise e, w') ∧
    next_block (bpy_data_images w') = (first + length loaded)%nat ∧
    (∀ img, (img < first ∨ first + length loaded ≤ img)%nat →
       blocks (bpy_data_images w') !! img
       = blocks (bpy_data_images w) !! img) ∧
    (∀ i tile, tiles !! i = Some tile →
       ∃ name, blocks (bpy_data_images w') !! (first + i)%nat
               = Some {| block_name := name; block_image := tile |}).
Proof.
  intros Hget Hmembers Hfiles Hloads Hfail first.
  destruct (get_image_sequences_in_folder h (path props) w) as [r w1] eqn:Hrun.
  cbn [fst] in Hget. subst r.
  pose proof (get_image_sequences_images _ _ _ _ _ Hrun) as Himgs.
  destruct (load_tiles_Raise h (path props) loaded tiles file rest e
              Hloads Hfail [] (0, 0) w1)
    as (w' & Hload & _ & _ & Hn & Hold & Hnew).
  rewrite Himgs in Hn, Hold, Hnew. fold first in Hn, Hold, Hnew.
  exists w'. split_and!; try done.
  unfold execute. rewrite (bind_run _ _ _ _ _ Hrun), Hmembers.
  rewrite (bind_run _ _ w1 members w1) by done.
  rewrite (bind_run _ _ _ _ _
             (row_count_read_cached h h props w found w1 members
                Hrun Hmembers)).
  apply bind_raise. by rewrite Hfiles.
Qed.

(** The directory is read while it holds two frames; one of them is then
    deleted, and the operator runs on the cached sequences. *)
Lemma execute_failed_load_leaves_tiles_witness :
  let before := Sample.host (lit "/render")
                  [(lit "frame_002.png", Sample.solid 1 1 0.5%float);
                   (lit "frame_001.png", Sample.solid 1 1 0.25%float)] in
  let h := Sample.host (lit "/render")
             [(lit "frame_001.png", Sample.solid 1 1 0.25%float)] in
  let props := {| path := lit "/render"; sequence := lit "frame_#.png";
                  column_count := 2; row_order := top_to_bottom;
                  output_name := lit "Texture Atlas";
                  overwrite_existing := false |} in
  let w := (get_image_sequences_in_folder before (lit "/render")
              Sample.fresh_world).2 in
  ∃ w',
    execute h props w = (Raise RuntimeError, w') ∧
    next_block (bpy_data_images w') = (0 + 1)%nat ∧
    (∀ img, (img < 0 ∨ 0 + 1 ≤ img)%nat →
       blocks (bpy_data_images w') !! img
       = blocks (bpy_data_images w) !! img) ∧
    (∀ i tile, [Sample.solid 1 1 0.25%float] !! i = Some tile →
       ∃ name, blocks (bpy_data_images w') !! (0 + i)%nat
               = Some {| block_name := name; block_image := tile |}).
Proof.
  intros before h props w.
  apply (execute_failed_load_leaves_tiles h props w
           {[ lit "frame_#.png" := [(2, lit "frame_002.png");
                                    (1, lit "frame_001.png")] ]}
           [(2, lit "frame_002.png"); (1, lit "frame_001.png")]
           [lit "frame_001.png"] (lit "frame_002.png") []
           [Sample.solid 1 1 0.25%float] RuntimeError).
  - by vm_compute.
  - by vm_compute.
  - by vm_compute.
  - repeat constructor.
  - by vm_compute.
Defined.
